(** * PD_generator: the text fitter, the image placer and the file-name
    sanitizer, embedded from [src/pd_generator/text_utils.py] and
    [poster.py].

    Conventions of the embedding.
    - A Python [str] is a list of Unicode code points ([str := list N]);
      ASCII literals are written [py "..."].
    - A Python [float] (or [int] used as a number of points) is an exact
      rational of [Q]: comparisons and arithmetic are the ideal ones, the
      rounding of IEEE doubles is not modelled.
    - reportlab's [stringWidth] is the glyph-metrics provider: it is a
      parameter of the text fitter.
    - A Python exception is a constructor of [result]; a [while] loop whose
      body is not structurally decreasing takes a fuel argument, and the
      fuel the caller passes is shown to be enough.
    - The file system is a parameter: [path_exists] and [image_size] for
      the functions that only read it, a state [world] threaded through
      [generate_all_posters], whose [generate_poster] writes to it. *)

From Stdlib Require Import List ZArith NArith QArith Qround Bool Lia Lqa String Ascii.
From Stdlib Require Import Permutation.
Import ListNotations.

Local Open Scope Q_scope.

(** ** Python built-ins used by the sources *)

Module Py.

Definition char := N.
Definition str := list char.

Definition py (s : string) : str :=
  List.map N_of_ascii (list_ascii_of_string s).

Definition SPACE : char := 32%N.
Definition NEWLINE : char := 10%N.
Definition UNDERSCORE : char := 95%N.
Definition DOT : char := 46%N.
(** U+2026 HORIZONTAL ELLIPSIS, one code point. *)
Definition ELLIPSIS : char := 8230%N.

Definition str_eqb (a b : str) : bool :=
  if list_eq_dec N.eq_dec a b then true else false.

(** Truth value of a string or of a list: non-empty. *)
Definition truthy {A : Type} (l : list A) : bool :=
  match l with
  | [] => false
  | _ :: _ => true
  end.

(** [str.isspace] on one code point (the table of CPython's
    [_PyUnicode_IsWhitespace]). *)
Definition isspace (c : char) : bool :=
  ((9 <=? c) && (c <=? 13) || (28 <=? c) && (c <=? 32)
   || (c =? 133) || (c =? 160) || (c =? 5760)
   || (8192 <=? c) && (c <=? 8202)
   || (c =? 8232) || (c =? 8233) || (c =? 8239) || (c =? 8287)
   || (c =? 12288))%N.

Fixpoint lstrip_by (p : char -> bool) (s : str) : str :=
  match s with
  | [] => []
  | c :: t => if p c then lstrip_by p t else s
  end.

Definition rstrip_by (p : char -> bool) (s : str) : str :=
  rev (lstrip_by p (rev s)).

Definition strip_by (p : char -> bool) (s : str) : str :=
  rstrip_by p (lstrip_by p s).

(** [s.strip()] *)
Definition strip (s : str) : str := strip_by isspace s.

(** [s.strip(chars)] *)
Definition strip_chars (chars : str) (s : str) : str :=
  strip_by (fun c => existsb (N.eqb c) chars) s.

Fixpoint startswith (prefix s : str) : bool :=
  match prefix, s with
  | [], _ => true
  | _ :: _, [] => false
  | a :: p, b :: t => (a =? b)%N && startswith p t
  end.

(** [old in s] *)
Fixpoint contains (old s : str) : bool :=
  startswith old s ||
  match s with
  | [] => false
  | _ :: t => contains old t
  end.

(** [s.replace(old, new)] for a non-empty [old]: the occurrences are found
    from the left and do not overlap. [skip] counts the characters of a
    matched occurrence that are still to be passed over. *)
Fixpoint replace_from (old new : str) (skip : nat) (s : str) : str :=
  match s with
  | [] => []
  | c :: t =>
      match skip with
      | S k => replace_from old new k t
      | O =>
          if startswith old s
          then new ++ replace_from old new (List.length old - 1) t
          else c :: replace_from old new 0 t
      end
  end.

Definition replace (old new s : str) : str := replace_from old new 0 s.

(** [s.split(" ")]: every single space separates, so runs of spaces give
    empty pieces, and the empty string gives one empty piece. *)
Fixpoint split_space (s : str) : list str :=
  match s with
  | [] => [[]]
  | c :: t =>
      if (c =? SPACE)%N then [] :: split_space t
      else match split_space t with
           | w :: ws => (c :: w) :: ws
           | [] => [[c]]
           end
  end.

(** [sep.join(parts)] with [sep = " "]. *)
Fixpoint join_space (parts : list str) : str :=
  match parts with
  | [] => []
  | [p] => p
  | p :: rest => p ++ SPACE :: join_space rest
  end.

(** [l[:k]] with Python's meaning of a negative bound. *)
Definition slice_to {A : Type} (l : list A) (k : Z) : list A :=
  if (k <? 0)%Z
  then firstn (List.length l - Z.to_nat (- k)) l
  else firstn (Z.to_nat k) l.

(** [int(x)] on a float: truncation towards zero. *)
Definition int_of (x : Q) : Z := Z.quot (Qnum x) (Zpos (Qden x)).

(** [len(l)] as a number. *)
Definition len {A : Type} (l : list A) : Q := inject_Z (Z.of_nat (List.length l)).

End Py.
Import Py.

(** ** Outcomes of fallible code *)

Inductive exn : Type :=
| ZeroDivisionError
| OSError.

Inductive result (A : Type) : Type :=
| Ok (a : A)
| Raise (e : exn)
| OutOfFuel.
Arguments Ok {A} a.
Arguments Raise {A} e.
Arguments OutOfFuel {A}.

Definition bind {A B : Type} (r : result A) (k : A -> result B) : result B :=
  match r with
  | Ok a => k a
  | Raise e => Raise e
  | OutOfFuel => OutOfFuel
  end.

Notation "x <- r ;; k" := (bind r (fun x => k))
  (at level 61, r at next level, right associativity).
Notation "' pat <- r ;; k" := (bind r (fun x => match x with pat => k end))
  (at level 61, pat pattern, r at next level, right associativity).

(** [a / b] on floats. *)
Definition py_div (a b : Q) : result Q :=
  if Qeq_bool b 0 then Raise ZeroDivisionError else Ok (a / b).

(** ** text_utils.py *)

Section TextFitter.

(** [stringWidth(text, font_name, font_size)] of reportlab. *)
Variable stringWidth : str -> str -> Q -> Q.

Section Wrap.

Variable max_width : Q.
Variable font_name : str.
Variable font_size : Q.

(** One turn of the [for char in word] loop of [_break_long_word] on the
    state [(result, current)]. *)
Definition break_step (st : list str * str) (ch : char) : list str * str :=
  let '(result, current) := st in
  let test := current ++ [ch] in
  if Qle_bool (stringWidth test font_name font_size) max_width
  then (result, test)
  else ((if truthy current then result ++ [current] else result), [ch]).

(** What the code does with the pending line after a loop: append it when
    it is non-empty. *)
Definition flush (st : list str * str) : list str :=
  let '(result, current) := st in
  if truthy current then result ++ [current] else result.

Definition _break_long_word (word : str) : list str :=
  flush (fold_left break_step word ([], [])).

(** One turn of the [for word in words] loop of [wrap_text] on the state
    [(lines, current_line)]. *)
Definition wrap_step (st : list str * str) (word : str) : list str * str :=
  let '(lines, current_line) := st in
  if str_eqb word [NEWLINE] then
    ((if truthy current_line then lines ++ [strip current_line] else lines), [])
  else if negb (truthy word) then st
  else
    let test_line :=
      if truthy current_line
      then strip (current_line ++ [SPACE] ++ word)
      else word in
    let test_width := stringWidth test_line font_name font_size in
    if Qle_bool test_width max_width then (lines, test_line)
    else
      let lines := if truthy current_line then lines ++ [current_line] else lines in
      if negb (Qle_bool (stringWidth word font_name font_size) max_width)
      then (lines ++ _break_long_word word, [])
      else (lines, word).

(** [text.replace("\n", " \n ").split(" ")] *)
Definition words_of (text : str) : list str :=
  split_space (replace [NEWLINE] [SPACE; NEWLINE; SPACE] text).

Definition wrap_loop (words : list str) : list str * str :=
  fold_left wrap_step words ([], []).

Definition wrap_text (text : str) : list str :=
  if negb (truthy text) then []
  else flush (wrap_loop (words_of text)).

End Wrap.

(** [calculate_text_height] *)
Definition calculate_text_height (lines : list str) (font_size line_spacing : Q) : Q :=
  if negb (truthy lines) then 0
  else
    let line_height := font_size * line_spacing in
    len lines * line_height.

Section Fit.

Variable text : str.
Variable max_width max_height : Q.
Variable font_name : str.
Variable initial_font_size min_font_size line_spacing : Q.

(** The [while font_size >= min_font_size] loop. [Ok (Some (lines, size))]
    is the [return] inside the loop, [Ok None] the exit of the loop by its
    condition. *)
Fixpoint shrink_loop (fuel : nat) (font_size : Q) : result (option (list str * Q)) :=
  match fuel with
  | O => OutOfFuel
  | S fuel' =>
      if Qle_bool min_font_size font_size then
        let lines := wrap_text max_width font_name font_size text in
        let height := calculate_text_height lines font_size line_spacing in
        if Qle_bool height max_height then Ok (Some (lines, font_size))
        else shrink_loop fuel' (font_size - 1)
      else Ok None
  end.

(** The [while last_line and stringWidth(last_line + ellipsis) > max_width]
    loop; every turn removes one character, so [len(last_line)] turns are
    all it can make. *)
Fixpoint shorten_loop (fuel : nat) (font_size : Q) (last_line : str) : str :=
  match fuel with
  | O => last_line
  | S fuel' =>
      if truthy last_line
         && negb (Qle_bool (stringWidth (last_line ++ [ELLIPSIS]) font_name font_size)
                           max_width)
      then shorten_loop fuel' font_size (removelast last_line)
      else last_line
  end.

(** The code after the loop: truncation at the minimum size. *)
Definition truncate_at_min : result (list str * Q * bool) :=
  let font_size := min_font_size in
  let lines := wrap_text max_width font_name font_size text in
  let line_height := font_size * line_spacing in
  q <- py_div max_height line_height ;;
  let max_lines := int_of q in
  if (Z.of_nat (List.length lines) >? max_lines)%Z then
    let lines := slice_to lines max_lines in
    let lines :=
      if truthy lines then
        let last_line := last lines [] in
        let last_line := shorten_loop (List.length last_line) font_size last_line in
        removelast lines ++ [last_line ++ [ELLIPSIS]]
      else lines in
    Ok (lines, font_size, true)
  else Ok (lines, font_size, false).

Definition fit_text_to_box_fuel (fuel : nat) : result (list str * Q * bool) :=
  if negb (truthy text) then Ok ([], initial_font_size, false)
  else
    found <- shrink_loop fuel initial_font_size ;;
    match found with
    | Some (lines, font_size) => Ok (lines, font_size, false)
    | None => truncate_at_min
    end.

(** The loop tests its condition once for every size
    [initial, initial - 1, ...] that is at least [min_font_size], and once
    more to leave. *)
Definition shrink_fuel : nat :=
  S (Z.to_nat (Qfloor (initial_font_size - min_font_size) + 1)).

Definition fit_text_to_box : result (list str * Q * bool) :=
  fit_text_to_box_fuel shrink_fuel.

End Fit.

End TextFitter.

(** The sizes the shrink loop visits: [initial], [initial - 1], ... *)
Definition size_after (initial_font_size : Q) (k : nat) : Q :=
  Nat.iter k (fun font_size => font_size - 1) initial_font_size.

(** [sanitize_filename] *)

Definition unsafe_chars : str := py "<>:" ++ [34%N] ++ py "/\|?*" ++ [0%N].

(** [while old in result: result = result.replace(old, new)] for a [new]
    shorter than [old]: every turn shortens [result], so [len(result)]
    turns are all it can make. *)
Fixpoint collapse_loop (fuel : nat) (old new result : str) : str :=
  match fuel with
  | O => result
  | S fuel' =>
      if contains old result
      then collapse_loop fuel' old new (replace old new result)
      else result
  end.

Definition sanitize_filename (name : str) (max_length : nat) : str :=
  let result := name in
  let result :=
    fold_left (fun result char => replace [char] [UNDERSCORE] result)
              unsafe_chars result in
  let result := collapse_loop (List.length result) [SPACE; SPACE] [SPACE] result in
  let result := collapse_loop (List.length result) [UNDERSCORE; UNDERSCORE] [UNDERSCORE] result in
  let result := strip_chars [SPACE; DOT] result in
  if (max_length <? List.length result)%nat then firstn max_length result
  else result.

Definition format_output_filename (pattern project_id project_name : str) : str :=
  let result := replace (py "{project_id}") project_id pattern in
  let result := replace (py "{project_name}") project_name result in
  sanitize_filename result 200.

(** A fixed-pitch metric (every glyph of Courier is 0.6 em wide). *)
Definition courier (s : str) (font_name : str) (size : Q) : Q :=
  (6 # 10) * size * len s.

(** ** poster.py *)

(** What the canvas is asked to do, in order. [ClipRect] stands for the
    path made of one rectangle that [clipPath] receives. *)
Inductive canvas_op : Type :=
| SaveState
| RestoreState
| ClipRect (x y width height : Q)
| DrawImage (x y width height : Q) (preserveAspectRatio : bool)
| SetStrokeBlack
| SetFillWhite
| Rect (x y width height : Q)
| SetFont (font_name : str) (size : Q)
| DrawString (x y : Q) (text : str).

(** [reportlab.lib.units.mm] *)
Definition mm : Q := 72 / (254 # 10).

(** The body of the [try] of [PosterGenerator._draw_image]. [img_size] is
    [img.size] of the opened image, [None] when [Image.open] raises. *)
Definition draw_image_body (img_size : option (Z * Z)) (x y width height : Q)
    (fit_mode : str) : result (list canvas_op) :=
  match img_size with
  | None => Raise OSError
  | Some (img_width, img_height) =>
      let img_width := inject_Z img_width in
      let img_height := inject_Z img_height in
      img_aspect <- py_div img_width img_height ;;
      target_aspect <- py_div width height ;;
      if str_eqb fit_mode (py "cover") then
        '(draw_x, draw_y, scaled_width, scaled_height) <-
          (if negb (Qle_bool img_aspect target_aspect) then
             scale <- py_div height img_height ;;
             let scaled_width := img_width * scale in
             let scaled_height := height in
             let draw_x := x - (scaled_width - width) / 2 in
             let draw_y := y in
             Ok (draw_x, draw_y, scaled_width, scaled_height)
           else
             scale <- py_div width img_width ;;
             let scaled_width := width in
             let scaled_height := img_height * scale in
             let draw_x := x in
             let draw_y := y - (scaled_height - height) / 2 in
             Ok (draw_x, draw_y, scaled_width, scaled_height)) ;;
        Ok [SaveState; ClipRect x y width height;
            DrawImage draw_x draw_y scaled_width scaled_height false;
            RestoreState]
      else
        '(scaled_width, scaled_height) <-
          (if negb (Qle_bool img_aspect target_aspect) then
             scaled_height <- py_div width img_aspect ;;
             Ok (width, scaled_height)
           else
             Ok (height * img_aspect, height)) ;;
        let draw_x := x + (width - scaled_width) / 2 in
        let draw_y := y + (height - scaled_height) / 2 in
        Ok [DrawImage draw_x draw_y scaled_width scaled_height true]
  end.

(** [_draw_image]: the canvas operations and the warnings added. Any
    exception of the body is caught: a warning and a placeholder take the
    place of the image. The warning is the message of the code without the
    text of the exception that ends it; [drawImage] itself is taken to
    succeed. *)
Definition _draw_image (image_path : str) (img_size : option (Z * Z))
    (x y width height : Q) (fit_mode : str) : list canvas_op * list str :=
  match draw_image_body img_size x y width height fit_mode with
  | Ok ops => (ops, [])
  | _ =>
      ([SetStrokeBlack; SetFillWhite; Rect x y width height],
       [py "Failed to draw image " ++ image_path])
  end.

Record FontsConfig : Type := {
  heading_size : Q;
  body_size : Q;
  min_font_size : Q;
  line_spacing : Q
}.

(** [a or b] on strings. *)
Definition str_or (a b : str) : str := if truthy a then a else b.

(** [max(a, b)]: the second argument only when it is strictly greater. *)
Definition py_max (a b : Q) : Q := if negb (Qle_bool b a) then b else a.

Section TeamBlock.

Variable stringWidth : str -> str -> Q -> Q.
Variable fonts : FontsConfig.
Variable heading_font body_font : str.
Variable padding_bottom text_x text_column_width : Q.

(** The [for line in team_lines] loop: draws and moves down. *)
Fixpoint draw_lines (lines : list str) (cur_y line_h : Q) : list canvas_op :=
  match lines with
  | [] => []
  | line :: rest => DrawString text_x cur_y line :: draw_lines rest (cur_y - line_h) line_h
  end.

(** The team block of [PosterGenerator.generate_poster]: the canvas
    operations and the warnings it adds. *)
Definition draw_team_block (team project_id : str) : result (list canvas_op * list str) :=
  let team_block_height := 70 * mm in
  let team_top := padding_bottom + team_block_height in
  let team_text_top := team_top - (heading_size fonts * (18 # 10)) in
  let team_max_height := team_text_top - padding_bottom in
  '(team_lines, team_size, team_truncated) <-
    fit_text_to_box stringWidth (str_or team []) text_column_width team_max_height
      body_font (py_max (body_size fonts - 2) (min_font_size fonts))
      (min_font_size fonts) (line_spacing fonts) ;;
  let cur_y := team_text_top - team_size in
  let line_h := team_size * line_spacing fonts in
  Ok ([SetFont heading_font (heading_size fonts);
       DrawString text_x (team_top - heading_size fonts)
         [1050; 1086; 1084; 1072; 1085; 1076; 1072]%N;
       SetFont body_font team_size]
      ++ draw_lines team_lines cur_y line_h,
      if team_truncated
      then [py "Team text truncated for project " ++ project_id]
      else []).

End TeamBlock.

(** ** Predicates of the statements about wrapping *)

(** What a newline does to the state of the loop of [wrap_text]: the
    pending line is closed, stripped. *)
Definition close_line (st : list str * str) : list str :=
  let '(lines, current_line) := st in
  if truthy current_line then lines ++ [strip current_line] else lines.

(** The line that [wrap_text] measures when [word] comes. *)
Definition test_line_of (current_line word : str) : str :=
  if truthy current_line then strip (current_line ++ [SPACE] ++ word) else word.

(** The only white space of the text is the space, or the space and the
    newline: no tab, no no-break space, ... *)
Definition only_spaces (text : str) : Prop :=
  Forall (fun c => isspace c = true -> c = SPACE) text.

Definition only_spaces_and_newlines (text : str) : Prop :=
  Forall (fun c => isspace c = true -> c = SPACE \/ c = NEWLINE) text.

(** A string that neither starts nor ends with white space, and is not
    empty: what every word and every line of a text is when the text has no
    white space but spaces and newlines. *)
Definition tidy (s : str) : Prop :=
  s <> [] /\ isspace (hd SPACE s) = false /\ isspace (last s SPACE) = false.

(** A word without white space, and not empty. *)
Definition plain (word : str) : Prop :=
  word <> [] /\ Forall (fun c => isspace c = false) word.

(** The two conditions on a text, as tests. *)
Definition only_spacesb (text : str) : bool :=
  forallb (fun c => negb (isspace c) || (c =? SPACE)%N) text.

Definition only_spaces_and_newlinesb (text : str) : bool :=
  forallb (fun c => negb (isspace c) || (c =? SPACE)%N || (c =? NEWLINE)%N) text.

(** A monotone metric: at a size that is not negative, the width of a
    string does not grow when the size decreases, and does not shrink when
    the string is extended at either end. *)
Definition monotone_metric (stringWidth : str -> str -> Q -> Q) : Prop :=
  (forall t font s1 s2,
     0 <= s1 -> s1 <= s2 -> stringWidth t font s1 <= stringWidth t font s2)
  /\ (forall p t q font s,
        0 <= s -> stringWidth t font s <= stringWidth (p ++ t ++ q) font s).

(** Two characters [c] in a row somewhere in [s]: what ["cc" in s] tests. *)
Fixpoint has_pair (c : char) (s : str) : bool :=
  match s with
  | a :: (b :: _) as t => ((a =? c) && (b =? c))%N || has_pair c t
  | _ => false
  end.

(** The tokens of a text whose white space is spaces and newlines. *)
Definition token (x : str) : Prop := x = [] \/ x = [NEWLINE] \/ plain x.

(** The number of lines a state of a wrapping loop stands for. *)
Definition line_count (st : list str * str) : nat := List.length (flush st).

(** The state [st'] of a loop run with the wider test is not behind the
    state [st] of the loop run with the narrower one on the same input:
    fewer lines, or as many and a pending line that is a suffix of the
    other. *)
Definition not_behind (st st' : list str * str) : Prop :=
  (line_count st' < line_count st)%nat
  \/ (line_count st' = line_count st
      /\ (snd st = [] \/ exists p, snd st = p ++ snd st')).

(** ** Predicates of the statements *)

Section FitPredicates.

Variable stringWidth : str -> str -> Q -> Q.
Variable text : str.
Variable max_width max_height : Q.
Variable font_name : str.
Variable min_font_size line_spacing : Q.

(** The text wrapped at size [s] is not higher than the box: the test the
    loop makes, written with the height formula of the specification. *)
Definition height_fits (s : Q) : Prop :=
  len (wrap_text stringWidth max_width font_name s text) * s * line_spacing
  <= max_height.

(** What a result of the shrink loop started at [s] says about the sizes
    it went through. *)
Definition loop_post (s : Q) (r : option (list str * Q)) : Prop :=
  match r with
  | Some (lines, size) =>
      exists k, size = size_after s k
                /\ lines = wrap_text stringWidth max_width font_name size text
                /\ min_font_size <= size /\ height_fits size
                /\ forall j, (j < k)%nat -> ~ height_fits (size_after s j)
  | None =>
      exists k, size_after s k < min_font_size
                /\ forall j, (j < k)%nat ->
                     min_font_size <= size_after s j
                     /\ ~ height_fits (size_after s j)
  end.

End FitPredicates.

(** ** More of poster.py and excel_reader.py *)

(** [sep.join(parts)] *)
Fixpoint join (sep : str) (parts : list str) : str :=
  match parts with
  | [] => []
  | [p] => p
  | p :: rest => p ++ sep ++ join sep rest
  end.

(** The characters of a string that are not white space. *)
Definition letters (s : str) : str := filter (fun c => negb (isspace c)) s.

(** The calls of the canvas: those of [canvas_op], and
    [setFillColor(black)]. *)
Inductive canvas_call : Type :=
| Call (op : canvas_op)
| SetFillBlack.

Section TextBlock.

Variable stringWidth : str -> str -> Q -> Q.
Variable fonts : FontsConfig.
Variable heading_font : str.

(** The [for line in lines] loop of [_draw_text_block] on
    [(current_y, total_height)]: the calls made and the height reached. *)
Fixpoint draw_block_lines (x final_size line_height : Q) (lines : list str)
    (current_y total_height : Q) : list canvas_call * Q :=
  match lines with
  | [] => ([], total_height)
  | line :: rest =>
      let '(calls, total_height) :=
        draw_block_lines x final_size line_height rest
          (current_y - line_height) (total_height + line_height) in
      (Call (DrawString x (current_y - final_size) line) :: calls, total_height)
  end.


End TextBlock.

(** [LogoConfig], the fields [_draw_logos] reads. *)
Record LogoConfig : Type := {
  paths : list str;
  height_mm : Q;
  spacing_mm : Q
}.

Section Logos.

(** The file system: [Path.exists()] and [Image.open(path).size], [None]
    when the image does not open. *)
Variable path_exists : str -> bool.
Variable image_size : str -> option (Z * Z).
Variable logos : LogoConfig.

(** The [try] of the loop of [_draw_logos] up to the test for space: the
    width of the logo. *)
Definition logo_width_of (logo_path : str) (logo_height : Q) : result Q :=
  match image_size logo_path with
  | None => Raise OSError
  | Some (img_width, img_height) =>
      aspect <- py_div (inject_Z img_width) (inject_Z img_height) ;;
      Ok (logo_height * aspect)
  end.

(** The [for logo_path_str in paths] loop from [current_x]: a missing file
    and a logo that raises are passed over, the first logo that does not
    fit ends the loop. *)
Fixpoint draw_logos_from (x y max_width : Q) (logo_paths : list str)
    (current_x : Q) : list canvas_op :=
  let logo_height := height_mm logos * mm in
  let spacing := spacing_mm logos * mm in
  match logo_paths with
  | [] => []
  | logo_path :: rest =>
      if negb (path_exists logo_path) then
        draw_logos_from x y max_width rest current_x
      else
        match logo_width_of logo_path logo_height with
        | Ok logo_width =>
            if negb (Qle_bool (current_x + logo_width) (x + max_width)) then []
            else
              DrawImage current_x y logo_width logo_height true
              :: draw_logos_from x y max_width rest
                   (current_x + (logo_width + spacing))
        | _ => draw_logos_from x y max_width rest current_x
        end
  end.

(** [PosterGenerator._draw_logos]; the messages of the logger are left
    out. *)
Definition _draw_logos (x y max_width max_height : Q) : list canvas_op :=
  if negb (truthy (paths logos)) then []
  else draw_logos_from x y max_width (paths logos) x.

End Logos.

(** Logos in a row between [left] and [right]: each one inside, not
    narrower than nothing, and the next one not before its end. *)
Fixpoint logo_row (left right : Q) (ops : list canvas_op) : Prop :=
  match ops with
  | [] => True
  | DrawImage draw_x _ width _ _ :: rest =>
      left <= draw_x /\ 0 <= width /\ draw_x + width <= right
      /\ logo_row (draw_x + width) right rest
  | _ :: _ => False
  end.

(** [ProjectData] of excel_reader.py. *)
Record ProjectData : Type := {
  project_id : str;
  project_name : str;
  problem : str;
  solution : str;
  product : str;
  team : str;
  image_filename : option str;
  row_number : Z
}.

(** [ProjectData.validate] *)
Definition validate (self : ProjectData) : list str :=
  let errors := [] in
  let errors :=
    if negb (truthy (project_id self)) then errors ++ [py "Missing project_id"]
    else errors in
  let errors :=
    if negb (truthy (project_name self)) then errors ++ [py "Missing project_name"]
    else errors in
  let errors :=
    if negb (truthy (problem self))
    then errors ++ [py "Missing problem description"] else errors in
  let errors :=
    if negb (truthy (solution self))
    then errors ++ [py "Missing solution description"] else errors in
  let errors :=
    if negb (truthy (product self))
    then errors ++ [py "Missing product description"] else errors in
  let errors :=
    if negb (truthy (team self)) then errors ++ [py "Missing team information"]
    else errors in
  errors.

(** The six required fields are all filled. *)
Definition complete (p : ProjectData) : bool :=
  truthy (project_id p) && truthy (project_name p) && truthy (problem p)
  && truthy (solution p) && truthy (product p) && truthy (team p).

Section FindImage.

(** Paths and the file system: [Path(s)], [folder / name] and
    [path.exists()]; [str.lower] and [str.upper]. *)
Variable path : Type.
Variable Path : str -> path.
Variable path_join : path -> str -> path.
Variable path_exists : path -> bool.
Variables lower upper : str -> str.

Definition default_extensions : list str :=
  [py ".jpg"; py ".jpeg"; py ".png"; py ".gif"; py ".bmp"; py ".tiff"].

(** The [for ext in supported_extensions] loop of [find_project_image]. *)
Fixpoint search_by_id (project : ProjectData) (images_folder : path)
    (extensions : list str) : option path :=
  match extensions with
  | [] => None
  | ext :: rest =>
      let image_path := path_join images_folder (project_id project ++ ext) in
      if path_exists image_path then Some image_path
      else
        let image_path := path_join images_folder (project_id project ++ lower ext) in
        if path_exists image_path then Some image_path
        else
          let image_path :=
            path_join images_folder (project_id project ++ upper ext) in
          if path_exists image_path then Some image_path
          else search_by_id project images_folder rest
  end.

(** [find_project_image] *)
Definition find_project_image (project : ProjectData) (images_folder : path)
    (supported_extensions : option (list str)) : option path :=
  let supported_extensions :=
    match supported_extensions with
    | None => default_extensions
    | Some extensions => extensions
    end in
  let by_id := search_by_id project images_folder supported_extensions in
  match image_filename project with
  | Some (_ :: _ as name) =>
      let image_path := path_join images_folder name in
      if path_exists image_path then Some image_path
      else
        let direct_path := Path name in
        if path_exists direct_path then Some direct_path
        else by_id
  | _ => by_id
  end.


End FindImage.

Section AllPosters.

(** The file system is a state [world]: [generate_poster] writes a PDF and
    so changes it, and [path.exists()] reads it. [generate_poster] is a
    parameter: from a state it gives the next one with the output path and
    the warnings, or with the text of the exception it raised ([inl]). *)
Variable path : Type.
Variable Path : str -> path.
Variable path_join : path -> str -> path.
Variables lower upper : str -> str.
Variable world : Type.
Variable path_exists : world -> path -> bool.
Variable generate_poster :
  world -> ProjectData -> option path -> world * (str + (path * list str)).

(** [only_ids is None or project.project_id in only_ids] *)
Definition selected (only_ids : option (list str)) (project : ProjectData) : bool :=
  match only_ids with
  | None => true
  | Some ids => existsb (str_eqb (project_id project)) ids
  end.

(** One turn of the [for project in projects] loop on the file system and
    [(successes, failures)]; the messages of the logger are left out. *)
Definition generate_one (images_folder : path) (only_ids : option (list str))
    (acc : world * (list (str * path) * list (str * str)))
    (project : ProjectData)
    : world * (list (str * path) * list (str * str)) :=
  let '(w, (successes, failures)) := acc in
  if negb (selected only_ids project) then acc
  else
    let errors := validate project in
    if truthy errors then
      (w, (successes,
           failures ++ [(project_id project,
                          py "Validation errors: " ++ join (py "; ") errors)]))
    else
      let image_path :=
        find_project_image path Path path_join (path_exists w) lower upper
          project images_folder None in
      match generate_poster w project image_path with
      | (w, inr (output_path, warnings)) =>
          (w, (successes ++ [(project_id project, output_path)], failures))
      | (w, inl e) =>
          (w, (successes,
               failures ++ [(project_id project,
                              py "Failed to generate poster: " ++ e)]))
      end.

(** [generate_all_posters] from the file system [w]. *)
Definition generate_all_posters (w : world) (projects : list ProjectData)
    (images_folder : path) (only_ids : option (list str))
    : world * (list (str * path) * list (str * str)) :=
  fold_left (generate_one images_folder only_ids) projects (w, ([], [])).

End AllPosters.

(** What [sanitize_filename] strips is at neither end. *)
Definition ends_clean (s : str) : Prop :=
  (forall c t, s = c :: t -> c <> SPACE /\ c <> DOT)
  /\ (forall l c, s = l ++ [c] -> c <> SPACE /\ c <> DOT).

(** A piece of a broken word, or a line: not empty, and within the width
    unless it is a single character. *)
Definition piece_ok (stringWidth : str -> str -> Q -> Q) (max_width : Q)
    (font_name : str) (font_size : Q) (piece : str) : Prop :=
  piece <> []
  /\ (Qle_bool (stringWidth piece font_name font_size) max_width = true
      \/ List.length piece = 1%nat).

(** * Properties *)

(** ** Arithmetic helpers *)

Lemma Qle_bool_false (x y : Q) : Qle_bool x y = false -> y < x.
Proof.
  intros H. apply Qnot_le_lt. intros Hle.
  apply Qle_bool_iff in Hle. congruence.
Qed.

Lemma Qle_bool_true (x y : Q) : Qle_bool x y = true -> x <= y.
Proof. apply Qle_bool_iff. Qed.

Lemma size_after_S (s : Q) (k : nat) :
  size_after s (S k) = size_after (s - 1) k.
Proof. exact (Nat.iter_succ_r k Q (fun font_size => font_size - 1) s). Qed.




Lemma len_nonneg {A : Type} (l : list A) : 0 <= len l.
Proof.
  unfold len. change 0 with (inject_Z 0). rewrite <- Zle_Qle. lia.
Qed.



Lemma calculate_text_height_eq (lines : list str) (font_size line_spacing : Q) :
  calculate_text_height lines font_size line_spacing
  == len lines * font_size * line_spacing.
Proof.
  unfold calculate_text_height. destruct lines; simpl.
  - unfold len. simpl. ring.
  - ring.
Qed.




Lemma Qfloor_unique (x : Q) (n : Z) :
  inject_Z n <= x -> x < inject_Z (n + 1) -> Qfloor x = n.
Proof.
  intros Hlo Hhi.
  pose proof (Qfloor_le x) as Fl. pose proof (Qlt_floor x) as Fh.
  assert (H1 : inject_Z n < inject_Z (Qfloor x + 1)) by lra.
  assert (H2 : inject_Z (Qfloor x) < inject_Z (n + 1)) by lra.
  rewrite <- Zlt_Qlt in H1, H2. lia.
Qed.

Lemma Qfloor_pred (x : Q) : Qfloor (x - 1) = (Qfloor x - 1)%Z.
Proof.
  apply Qfloor_unique.
  - pose proof (Qfloor_le x). unfold Z.sub. rewrite inject_Z_plus.
    rewrite inject_Z_opp. change (inject_Z 1) with 1. lra.
  - pose proof (Qlt_floor x) as H. replace (Qfloor x - 1 + 1)%Z with (Qfloor x) by lia.
    rewrite inject_Z_plus in H. change (inject_Z 1) with 1 in H. lra.
Qed.

(** ** The shrink loop *)

Section ShrinkLoop.

Variable stringWidth : str -> str -> Q -> Q.
Variable text : str.
Variable max_width max_height : Q.
Variable font_name : str.
Variable min_font_size line_spacing : Q.

Let wrap (s : Q) := wrap_text stringWidth max_width font_name s text.
Let loop := shrink_loop stringWidth text max_width max_height font_name
                        min_font_size line_spacing.
Let height_fits := height_fits stringWidth text max_width max_height font_name
                               line_spacing.
Let loop_post := loop_post stringWidth text max_width max_height font_name
                           min_font_size line_spacing.

Lemma height_test_true (s : Q) :
  Qle_bool (calculate_text_height (wrap s) s line_spacing) max_height = true
  <-> height_fits s.
Proof.
  unfold height_fits. fold (wrap s).
  rewrite Qle_bool_iff, calculate_text_height_eq. reflexivity.
Qed.

Lemma height_test_false (s : Q) :
  Qle_bool (calculate_text_height (wrap s) s line_spacing) max_height = false
  <-> ~ height_fits s.
Proof.
  rewrite <- height_test_true.
  destruct (Qle_bool _ _); split; congruence.
Qed.



Lemma loop_step_exit (fuel : nat) (s : Q) :
  s < min_font_size -> loop (S fuel) s = Ok None.
Proof.
  intros Hlt. unfold loop. simpl.
  destruct (Qle_bool min_font_size s) eqn:E; [|reflexivity].
  apply Qle_bool_iff in E. lra.
Qed.


Lemma loop_inv (fuel : nat) : forall (s : Q) (r : option (list str * Q)),
  loop fuel s = Ok r -> loop_post s r.
Proof.
  induction fuel as [|fuel IH]; intros s r H.
  - discriminate.
  - unfold loop in H. simpl in H.
    destruct (Qle_bool min_font_size s) eqn:Emin.
    + apply Qle_bool_iff in Emin.
      destruct (Qle_bool _ max_height) eqn:Efit.
      * injection H as <-. exists 0%nat. simpl.
        repeat split; try assumption.
        -- apply height_test_true. exact Efit.
        -- intros j Hj. lia.
      * apply height_test_false in Efit.
        apply IH in H. destruct r as [[lines size]|].
        -- destruct H as (k & Hs & Hl & Hm & Hf & Hb).
           exists (S k). rewrite size_after_S.
           repeat split; try assumption.
           intros [|j] Hj; [exact Efit|].
           rewrite size_after_S. apply Hb. lia.
        -- destruct H as (k & Hs & Hb).
           exists (S k). rewrite size_after_S. split; [exact Hs|].
           intros [|j] Hj; [split; assumption|].
           rewrite size_after_S. apply Hb. lia.
    + apply Qle_bool_false in Emin. injection H as <-.
      exists 0%nat. split; [exact Emin|]. intros j Hj. lia.
Qed.

Lemma loop_no_raise (fuel : nat) : forall (s : Q) (e : exn),
  loop fuel s <> Raise e.
Proof.
  induction fuel as [|fuel IH]; intros s e; [discriminate|].
  unfold loop. simpl.
  destruct (Qle_bool min_font_size s); [|discriminate].
  destruct (Qle_bool _ max_height); [discriminate|]. apply IH.
Qed.

(** The loop ends: the fuel [shrink_fuel] computes is enough. *)
Lemma loop_enough_fuel (fuel : nat) : forall (s : Q),
  (Z.to_nat (Qfloor (s - min_font_size) + 1) < fuel)%nat ->
  loop fuel s <> OutOfFuel.
Proof.
  induction fuel as [|fuel IH]; intros s Hfuel; [lia|].
  unfold loop. simpl.
  destruct (Qle_bool min_font_size s) eqn:Emin; [|discriminate].
  destruct (Qle_bool _ max_height); [discriminate|].
  apply IH. apply Qle_bool_iff in Emin.
  assert (H0 : (0 <= Qfloor (s - min_font_size))%Z).
  { change 0%Z with (Qfloor 0). apply Qfloor_resp_le. lra. }
  assert (E : s - 1 - min_font_size == s - min_font_size - 1) by ring.
  rewrite E, Qfloor_pred. lia.
Qed.

(** More fuel does not change a result. *)
Lemma loop_more_fuel (fuel : nat) : forall (s : Q) r (fuel' : nat),
  loop fuel s = Ok r -> (fuel <= fuel')%nat -> loop fuel' s = Ok r.
Proof.
  induction fuel as [|fuel IH]; intros s r fuel' H Hle; [discriminate|].
  destruct fuel' as [|fuel']; [lia|].
  unfold loop in *. simpl in *.
  destruct (Qle_bool min_font_size s); [|exact H].
  destruct (Qle_bool _ max_height); [exact H|].
  apply IH; [exact H | lia].
Qed.

End ShrinkLoop.

(** ** fit_text_to_box *)

Section FitFacts.

Variable stringWidth : str -> str -> Q -> Q.
Variable text : str.
Variable max_width max_height : Q.
Variable font_name : str.
Variable initial_font_size min_font_size line_spacing : Q.

Let wrap (s : Q) := wrap_text stringWidth max_width font_name s text.
Let loop := shrink_loop stringWidth text max_width max_height font_name
                        min_font_size line_spacing.
Let truncate := truncate_at_min stringWidth text max_width max_height font_name
                                min_font_size line_spacing.
Let fit := fit_text_to_box stringWidth text max_width max_height font_name
                           initial_font_size min_font_size line_spacing.


(** With the fuel of [fit_text_to_box] the loop returns or leaves by its
    condition. *)
Lemma loop_runs :
  exists r, loop (shrink_fuel initial_font_size min_font_size) initial_font_size = Ok r.
Proof.
  destruct (loop _ _) as [r|e|] eqn:E.
  - exists r. reflexivity.
  - exfalso. exact (loop_no_raise _ _ _ _ _ _ _ _ _ _ E).
  - exfalso. revert E. apply loop_enough_fuel. unfold shrink_fuel. lia.
Qed.

Lemma fit_nonempty : text <> [] ->
  exists r,
    loop (shrink_fuel initial_font_size min_font_size) initial_font_size = Ok r
    /\ fit = match r with
             | Some (lines, font_size) => Ok (lines, font_size, false)
             | None => truncate
             end.
Proof.
  intros Hne. destruct loop_runs as [r Hr]. exists r. split; [exact Hr|].
  unfold fit, fit_text_to_box, fit_text_to_box_fuel.
  destruct text; [congruence|]. simpl negb. cbv iota.
  unfold loop in Hr. rewrite Hr. reflexivity.
Qed.

(** Any larger fuel gives the same result. *)
Lemma fit_fuel_irrelevant (fuel : nat) :
  (shrink_fuel initial_font_size min_font_size <= fuel)%nat ->
  fit_text_to_box_fuel stringWidth text max_width max_height font_name
    initial_font_size min_font_size line_spacing fuel = fit.
Proof.
  intros Hle. unfold fit, fit_text_to_box, fit_text_to_box_fuel.
  destruct (negb (truthy text)); [reflexivity|].
  destruct loop_runs as [r Hr]. unfold loop in Hr. rewrite Hr.
  rewrite (loop_more_fuel _ _ _ _ _ _ _ _ _ _ _ Hr Hle). reflexivity.
Qed.


(** The shortening loop stops on an empty line or on a line that takes the
    ellipsis within the width. *)
Lemma shorten_loop_post (fuel : nat) : forall (size : Q) (last_line : str),
  (List.length last_line <= fuel)%nat ->
  let r := shorten_loop stringWidth max_width font_name fuel size last_line in
  r = [] \/ stringWidth (r ++ [ELLIPSIS]) font_name size <= max_width.
Proof.
  induction fuel as [|fuel IH]; intros size last_line Hlen; simpl.
  - left. destruct last_line; [reflexivity | simpl in Hlen; lia].
  - destruct last_line as [|c rest] eqn:El; [left; reflexivity|].
    rewrite <- El. replace (truthy last_line) with true by (subst; reflexivity).
    simpl andb.
    destruct (Qle_bool _ max_width) eqn:Ew; simpl negb; cbv iota.
    + right. apply Qle_bool_iff. exact Ew.
    + apply IH. rewrite removelast_firstn_len, length_firstn.
      subst last_line. simpl in *. lia.
Qed.

(** The code after the loop, case by case. *)
Lemma truncate_cases :
  ~ min_font_size * line_spacing == 0 ->
  let lines := wrap min_font_size in
  let max_lines := int_of (max_height / (min_font_size * line_spacing)) in
  (Z.of_nat (List.length lines) <= max_lines)%Z
  /\ truncate = Ok (lines, min_font_size, false)
  \/
  (Z.of_nat (List.length lines) > max_lines)%Z
  /\ exists kept,
       truncate = Ok (kept, min_font_size, true)
       /\ List.length kept = List.length (slice_to lines max_lines)
       /\ (kept <> [] ->
           exists body, last kept [] = body ++ [ELLIPSIS]
             /\ (body = []
                 \/ stringWidth (last kept []) font_name min_font_size <= max_width)).
Proof.
  intros Hnz lines max_lines.
  unfold truncate, truncate_at_min, py_div.
  destruct (Qeq_bool (min_font_size * line_spacing) 0) eqn:Ez.
  { apply Qeq_bool_iff in Ez. contradiction. }
  simpl bind. fold (wrap min_font_size). fold lines. fold max_lines.
  destruct (Z.of_nat (List.length lines) >? max_lines)%Z eqn:Egt.
  - right. split; [lia|].
    destruct (slice_to lines max_lines) as [|l0 ls] eqn:Es.
    + exists []. simpl. repeat split. congruence.
    + rewrite <- Es. replace (truthy (slice_to lines max_lines)) with true
        by (rewrite Es; reflexivity).
      cbv iota. eexists. split; [reflexivity|]. split.
      * rewrite length_app. simpl.
        rewrite removelast_firstn_len, length_firstn. rewrite Es. simpl. lia.
      * intros _. rewrite last_last. eexists. split; [reflexivity|].
        set (ll := last (slice_to lines max_lines) []).
        destruct (shorten_loop_post (List.length ll) min_font_size ll (le_n _))
          as [H|H]; [left; exact H | right; exact H].
  - left. split; [lia | reflexivity].
Qed.

End FitFacts.

(** ** Claims about fit_text_to_box *)



(** C2, as the code has it. Whenever [fit_text_to_box] returns [truncated =
    true] with a non-empty list of lines, the last line ends with the
    ellipsis, and its width at the resolved size is at most [max_width]
    unless the shortening loop removed every character of the line, which
    leaves the ellipsis alone whatever its width. *)
Theorem fit_truncation_ellipsis
    (stringWidth : str -> str -> Q -> Q) (text : str) (max_width max_height : Q)
    (font_name : str) (initial_font_size min_font_size line_spacing : Q)
    (lines : list str) (size : Q) :
  fit_text_to_box stringWidth text max_width max_height font_name
    initial_font_size min_font_size line_spacing = Ok (lines, size, true) ->
  lines <> [] ->
  exists body,
    last lines [] = body ++ [ELLIPSIS]
    /\ (body = [] \/ stringWidth (last lines []) font_name size <= max_width).
Proof.
  intros Hres Hlines.
  destruct text as [|c rest] eqn:Et; [discriminate|]. rewrite <- Et in Hres.
  assert (Hne : text <> []) by (rewrite Et; discriminate).
  clear Et c rest.
  destruct (fit_nonempty stringWidth text max_width max_height font_name
              initial_font_size min_font_size line_spacing Hne) as (r & _ & Hfit).
  rewrite Hres in Hfit. destruct r as [[lines' size']|]; [discriminate|].
  destruct (Qeq_bool (min_font_size * line_spacing) 0) eqn:Ez.
  { unfold truncate_at_min, py_div in Hfit. rewrite Ez in Hfit. discriminate. }
  apply Qeq_bool_neq in Ez.
  destruct (truncate_cases stringWidth text max_width max_height font_name
              min_font_size line_spacing Ez) as [[_ Ht]|[_ (kept & Ht & _ & Hlast)]];
    rewrite Ht in Hfit; [discriminate|].
  injection Hfit as -> ->. exact (Hlast Hlines).
Qed.


(** C9. Empty input. [wrap_text] of the empty string is the empty list of
    lines; [fit_text_to_box] of the empty string is the empty list at the
    initial size with [truncated = false]; and the team block of
    [generate_poster] adds no warning when the team text is empty. *)
Theorem empty_text_no_warning
    (stringWidth : str -> str -> Q -> Q) (max_width max_height : Q)
    (font_name : str) (font_size initial_size min_size spacing : Q)
    (fonts : FontsConfig) (heading_font body_font : str)
    (padding_bottom text_x text_column_width : Q) (project_id : str) :
  wrap_text stringWidth max_width font_name font_size [] = []
  /\ fit_text_to_box stringWidth [] max_width max_height font_name
       initial_size min_size spacing = Ok ([], initial_size, false)
  /\ exists ops,
       draw_team_block stringWidth fonts heading_font body_font
         padding_bottom text_x text_column_width [] project_id = Ok (ops, []).
Proof.
  split; [reflexivity|]. split; [reflexivity|].
  eexists. reflexivity.
Qed.

(** *** Instances *)



(** A box of height 25 keeps two lines of the four at size 8 and the
    ellipsis closes the second. *)
Lemma fit_truncation_ellipsis_witness :
  let lines := [py "hello"; py "worl" ++ [ELLIPSIS]] in
  (fit_text_to_box courier (py "hello world foo bar") 30 25 (py "Courier") 12 10 1
     = Ok (lines, 10, true)
   /\ lines <> [])
  /\ exists body,
       last lines [] = body ++ [ELLIPSIS]
       /\ (body = [] \/ courier (last lines []) (py "Courier") 10 <= 30).
Proof.
  intros lines.
  assert (H1 : fit_text_to_box courier (py "hello world foo bar") 30 25
                 (py "Courier") 12 10 1 = Ok (lines, 10, true))
    by (vm_compute; reflexivity).
  assert (H2 : lines <> []) by discriminate.
  split; [split; assumption|].
  exact (fit_truncation_ellipsis courier (py "hello world foo bar") 30 25
           (py "Courier") 12 10 1 lines 10 H1 H2).
Defined.

(** C2 fails where the box is narrower than the ellipsis: the two lines of
    ["ab"] in a box of width 0 and height 10 are cut to one, the loop
    empties it, and the ellipsis, 6 points wide, is returned in a box of
    width 0. *)
Lemma fit_truncation_ellipsis_counterexample :
  (10 <= 10 /\ 0 < 10)
  /\ fit_text_to_box courier (py "ab") 0 10 (py "Courier") 10 10 1
     = Ok ([[ELLIPSIS]], 10, true)
  /\ ~ courier (last [[ELLIPSIS]] []) (py "Courier") 10 <= 0.
Proof.
  split; [split; [unfold Qle; simpl; lia | reflexivity]|].
  split; [vm_compute; reflexivity|].
  intros H. apply Qle_bool_iff in H. vm_compute in H. discriminate.
Qed.



(** ** The image placer *)





(** ** Words and lines *)

Lemma startswith_char (c x : char) (t : str) :
  startswith [c] (x :: t) = (c =? x)%N.
Proof. simpl. apply andb_true_r. Qed.

Lemma replace_char_cons (c : char) (new : str) (x : char) (t : str) :
  replace [c] new (x :: t)
  = if (c =? x)%N then new ++ replace [c] new t else x :: replace [c] new t.
Proof.
  unfold replace. cbn [replace_from]. rewrite startswith_char. reflexivity.
Qed.

Lemma replace_char_app (c : char) (new a b : str) :
  replace [c] new (a ++ b) = replace [c] new a ++ replace [c] new b.
Proof.
  induction a as [|x a IH]; [reflexivity|].
  rewrite <- app_comm_cons, !replace_char_cons, IH.
  destruct (c =? x)%N; [rewrite app_assoc|]; reflexivity.
Qed.

Lemma replace_char_absent (c : char) (new s : str) :
  ~ In c s -> replace [c] new s = s.
Proof.
  induction s as [|x s IH]; intros H; [reflexivity|].
  rewrite replace_char_cons.
  destruct (N.eqb_spec c x) as [->|_].
  - exfalso. apply H. left. reflexivity.
  - rewrite IH; [reflexivity|]. intros Hin. apply H. right. exact Hin.
Qed.

Lemma split_space_nonempty (s : str) : split_space s <> [].
Proof.
  destruct s as [|c t]; simpl; [discriminate|].
  destruct (c =? SPACE)%N; [discriminate|].
  destruct (split_space t); discriminate.
Qed.

Lemma split_space_app (a b : str) :
  split_space (a ++ SPACE :: b) = split_space a ++ split_space b.
Proof.
  induction a as [|x a IH]; [reflexivity|].
  simpl. rewrite IH. destruct (x =? SPACE)%N; [reflexivity|].
  pose proof (split_space_nonempty a) as Hne.
  destruct (split_space a); [congruence | reflexivity].
Qed.

Lemma split_space_word (s : str) : ~ In SPACE s -> split_space s = [s].
Proof.
  induction s as [|x s IH]; intros H; [reflexivity|].
  simpl. destruct (N.eqb_spec x SPACE) as [->|_].
  - exfalso. apply H. left. reflexivity.
  - rewrite IH; [reflexivity|]. intros Hin. apply H. right. exact Hin.
Qed.

Lemma words_of_app_space (a b : str) :
  words_of (a ++ SPACE :: b) = words_of a ++ words_of b.
Proof.
  unfold words_of. rewrite replace_char_app, replace_char_cons.
  change (NEWLINE =? SPACE)%N with false. cbv iota.
  apply split_space_app.
Qed.

Lemma words_of_app_newline (a b : str) :
  words_of (a ++ NEWLINE :: b) = words_of a ++ [NEWLINE] :: words_of b.
Proof.
  unfold words_of. rewrite replace_char_app, replace_char_cons.
  change (NEWLINE =? NEWLINE)%N with true. cbv iota.
  cbn [app]. rewrite split_space_app. f_equal.
Qed.

Lemma words_of_word (word : str) :
  ~ In SPACE word -> ~ In NEWLINE word -> words_of word = [word].
Proof.
  intros Hs Hn. unfold words_of.
  rewrite replace_char_absent by exact Hn. apply split_space_word. exact Hs.
Qed.

Lemma str_eqb_eq (a b : str) : str_eqb a b = true <-> a = b.
Proof.
  unfold str_eqb. destruct (list_eq_dec N.eq_dec a b); split; congruence.
Qed.

Lemma str_eqb_neq (a b : str) : a <> b -> str_eqb a b = false.
Proof.
  intros H. unfold str_eqb. destruct (list_eq_dec N.eq_dec a b); congruence.
Qed.

Lemma truthy_true {A : Type} (l : list A) : l <> [] -> truthy l = true.
Proof. destruct l; [congruence | reflexivity]. Qed.

Section WrapFacts.

Variable stringWidth : str -> str -> Q -> Q.
Variable max_width : Q.
Variable font_name : str.
Variable font_size : Q.

Let step := wrap_step stringWidth max_width font_name font_size.
Let break_word := _break_long_word stringWidth max_width font_name font_size.
Let fitsb (s : str) := Qle_bool (stringWidth s font_name font_size) max_width.

(** The step of the loop on a word that is neither empty nor the newline
    token. *)
Lemma wrap_step_word (lines : list str) (current_line word : str) :
  word <> [] -> word <> [NEWLINE] ->
  let test_line := test_line_of current_line word in
  let closed := if truthy current_line then lines ++ [current_line] else lines in
  step (lines, current_line) word
  = if fitsb test_line then (lines, test_line)
    else if fitsb word then (closed, word)
    else (closed ++ break_word word, []).
Proof.
  intros Hne Hnl. unfold step, wrap_step, test_line_of, fitsb, break_word.
  rewrite (str_eqb_neq _ _ Hnl), (truthy_true _ Hne). simpl negb. cbv iota.
  destruct (Qle_bool _ max_width); [reflexivity|].
  destruct (Qle_bool _ max_width); reflexivity.
Qed.

Lemma wrap_step_newline (st : list str * str) :
  step st [NEWLINE] = (close_line st, []).
Proof. destruct st as [lines current_line]. reflexivity. Qed.

Lemma wrap_step_empty (st : list str * str) : step st [] = st.
Proof. destruct st as [lines current_line]. reflexivity. Qed.

(** The lines already closed are never touched again. *)
Lemma wrap_step_prefix (lines : list str) (current_line word : str) :
  step (lines, current_line) word
  = (lines ++ fst (step ([], current_line) word),
     snd (step ([], current_line) word)).
Proof.
  unfold step, wrap_step.
  destruct (str_eqb word [NEWLINE]).
  { destruct (truthy current_line); simpl; rewrite ?app_nil_r; reflexivity. }
  destruct (negb (truthy word)); [simpl; rewrite app_nil_r; reflexivity|].
  destruct (Qle_bool _ max_width); [simpl; rewrite app_nil_r; reflexivity|].
  destruct (negb (Qle_bool _ max_width)); destruct (truthy current_line);
    simpl; rewrite ?app_nil_r, <- ?app_assoc; reflexivity.
Qed.

Lemma wrap_fold_prefix (words : list str) : forall (lines : list str) (current_line : str),
  fold_left step words (lines, current_line)
  = (lines ++ fst (fold_left step words ([], current_line)),
     snd (fold_left step words ([], current_line))).
Proof.
  induction words as [|word words IH]; intros lines current_line.
  - simpl. rewrite app_nil_r. reflexivity.
  - cbn [fold_left]. rewrite wrap_step_prefix.
    destruct (step ([], current_line) word) as [l1 c1] eqn:E1. cbn [fst snd].
    rewrite (IH (lines ++ l1) c1), (IH l1 c1). cbn [fst snd].
    rewrite app_assoc. reflexivity.
Qed.

Lemma flush_prefix (lines : list str) (st : list str * str) :
  flush (lines ++ fst st, snd st) = lines ++ flush st.
Proof.
  destruct st as [rest current_line]. unfold flush. cbn [fst snd].
  destruct (truthy current_line); [rewrite app_assoc|]; reflexivity.
Qed.

(** [wrap_text] is the loop over the words also on the empty text. *)
Lemma wrap_text_loop (text : str) :
  wrap_text stringWidth max_width font_name font_size text
  = flush (wrap_loop stringWidth max_width font_name font_size (words_of text)).
Proof. destruct text; reflexivity. Qed.

(** A newline closes the pending line and the rest of the text is wrapped
    on its own. *)
Lemma wrap_text_newline (t1 t2 : str) :
  wrap_text stringWidth max_width font_name font_size (t1 ++ [NEWLINE] ++ t2)
  = close_line (wrap_loop stringWidth max_width font_name font_size (words_of t1))
    ++ wrap_text stringWidth max_width font_name font_size t2.
Proof.
  rewrite !wrap_text_loop. cbn [app]. rewrite words_of_app_newline.
  unfold wrap_loop. fold step. rewrite fold_left_app. cbn [fold_left].
  rewrite wrap_step_newline.
  rewrite (wrap_fold_prefix (words_of t2) (close_line _) []).
  apply flush_prefix.
Qed.

(** A word that follows a space is one more turn of the loop. *)
Lemma wrap_loop_next_word (t word : str) :
  ~ In SPACE word -> ~ In NEWLINE word ->
  wrap_loop stringWidth max_width font_name font_size (words_of (t ++ [SPACE] ++ word))
  = step (wrap_loop stringWidth max_width font_name font_size (words_of t)) word.
Proof.
  intros Hs Hn. cbn [app]. rewrite words_of_app_space, (words_of_word _ Hs Hn).
  unfold wrap_loop. fold step. rewrite fold_left_app. reflexivity.
Qed.

End WrapFacts.

(** ** Stripping *)

Lemma lstrip_by_head (p : char -> bool) (s : str) :
  p (hd SPACE s) = false -> s <> [] -> lstrip_by p s = s.
Proof.
  destruct s as [|c t]; [congruence|]. simpl. intros -> _. reflexivity.
Qed.

Lemma hd_rev (s : str) (d : char) : hd d (rev s) = last s d.
Proof.
  induction s as [|c t IH] using rev_ind; [reflexivity|].
  rewrite rev_app_distr, last_last. reflexivity.
Qed.

Lemma strip_tidy (s : str) : tidy s -> strip s = s.
Proof.
  intros (Hne & Hhd & Hlast). unfold strip, strip_by, rstrip_by.
  rewrite (lstrip_by_head _ s Hhd Hne).
  rewrite lstrip_by_head.
  - apply rev_involutive.
  - rewrite hd_rev. exact Hlast.
  - intros H. apply Hne. rewrite <- (rev_involutive s), H. reflexivity.
Qed.

Lemma last_app_cons (a : str) (c : char) (b : str) (d : char) :
  last (a ++ c :: b) d = last (c :: b) d.
Proof.
  induction a as [|x a IH]; [reflexivity|].
  rewrite <- app_comm_cons, <- IH. simpl.
  destruct (a ++ c :: b) eqn:E; [|reflexivity].
  destruct a; discriminate.
Qed.

Lemma last_cons_nonempty (c : char) (b : str) (d : char) :
  b <> [] -> last (c :: b) d = last b d.
Proof. destruct b; [congruence | reflexivity]. Qed.

Lemma tidy_join (current_line word : str) :
  tidy current_line -> tidy word -> tidy (current_line ++ [SPACE] ++ word).
Proof.
  intros (Hc & Hchd & _) (Hw & _ & Hwlast). repeat split.
  - destruct current_line; [congruence | discriminate].
  - destruct current_line; [congruence | exact Hchd].
  - cbn [app]. rewrite last_app_cons, last_cons_nonempty by exact Hw. exact Hwlast.
Qed.

Lemma test_line_tidy (current_line word : str) :
  tidy current_line -> tidy word ->
  test_line_of current_line word = current_line ++ [SPACE] ++ word.
Proof.
  intros Hc Hw. unfold test_line_of.
  rewrite (truthy_true _ (proj1 Hc)). apply strip_tidy, tidy_join; assumption.
Qed.

(** ** The greedy rule of wrap_text *)

(** C5, as the code has it. When a word follows a space, [wrap_text] keeps
    the candidate line (the word itself when no line is pending, otherwise
    pending line + space + word, stripped) as the pending line exactly when
    its width is at most [max_width]; otherwise it closes the pending line
    and starts a new one with that word, unless the word alone is wider than
    [max_width]: such a word is broken character by character into closed
    lines and no line is pending after it. The candidate is pending line +
    space + word whenever neither has white space at its ends. A newline
    closes the pending line and the text after it is wrapped on its own.
    With a width that takes two of the words of ["Alpha Beta Gamma"] and not
    three at size 10, the lines are ["Alpha Beta"] and ["Gamma"]. *)
Theorem wrap_greedy_and_newlines
    (stringWidth : str -> str -> Q -> Q) (max_width : Q) (font_name : str)
    (font_size : Q) :
  let wrap_loop := wrap_loop stringWidth max_width font_name font_size in
  let wrap_text := wrap_text stringWidth max_width font_name in
  let fitsb (s : str) := Qle_bool (stringWidth s font_name font_size) max_width in
  (forall t word,
     word <> [] -> ~ In SPACE word -> ~ In NEWLINE word ->
     let st := wrap_loop (words_of t) in
     let test_line := test_line_of (snd st) word in
     wrap_loop (words_of (t ++ [SPACE] ++ word))
     = if fitsb test_line then (fst st, test_line)
       else if fitsb word then (flush st, word)
       else (flush st
             ++ _break_long_word stringWidth max_width font_name font_size word, []))
  /\ (forall current_line word,
        tidy current_line -> tidy word ->
        test_line_of current_line word = current_line ++ [SPACE] ++ word)
  /\ (forall t1 t2,
        wrap_text font_size (t1 ++ [NEWLINE] ++ t2)
        = close_line (wrap_loop (words_of t1)) ++ wrap_text font_size t2)
  /\ (stringWidth (py "Alpha") font_name 10 <= max_width ->
      stringWidth (py "Alpha Beta") font_name 10 <= max_width ->
      ~ stringWidth (py "Alpha Beta Gamma") font_name 10 <= max_width ->
      stringWidth (py "Gamma") font_name 10 <= max_width ->
      wrap_text 10 (py "Alpha Beta Gamma") = [py "Alpha Beta"; py "Gamma"]).
Proof.
  intros wl wt fitsb. split; [|split; [|split]].
  - intros t word Hne Hs Hn st test_line. unfold wl.
    rewrite (wrap_loop_next_word _ _ _ _ _ _ Hs Hn). fold wl. fold st.
    assert (Hnl : word <> [NEWLINE]).
    { intros ->. apply Hn. left. reflexivity. }
    destruct st as [lines current_line].
    rewrite (wrap_step_word _ _ _ _ _ _ _ Hne Hnl). reflexivity.
  - apply test_line_tidy.
  - intros t1 t2. apply wrap_text_newline.
  - intros H1 H2 H3 H4. unfold wt. rewrite wrap_text_loop.
    replace (words_of (py "Alpha Beta Gamma"))
      with [py "Alpha"; py "Beta"; py "Gamma"] by (vm_compute; reflexivity).
    unfold wrap_loop. cbn [fold_left].
    apply Qle_bool_iff in H1, H2, H4.
    assert (H3' : Qle_bool (stringWidth (py "Alpha Beta Gamma") font_name 10)
                           max_width = false).
    { destruct (Qle_bool (stringWidth (py "Alpha Beta Gamma") font_name 10)
                         max_width) eqn:E; [|reflexivity].
      apply Qle_bool_iff in E. contradiction. }
    rewrite (wrap_step_word _ _ _ _ [] [] (py "Alpha")) by discriminate.
    change (test_line_of [] (py "Alpha")) with (py "Alpha"). rewrite H1.
    rewrite (wrap_step_word _ _ _ _ [] (py "Alpha") (py "Beta")) by discriminate.
    change (test_line_of (py "Alpha") (py "Beta")) with (py "Alpha Beta").
    rewrite H2.
    rewrite (wrap_step_word _ _ _ _ [] (py "Alpha Beta") (py "Gamma")) by discriminate.
    change (test_line_of (py "Alpha Beta") (py "Gamma")) with (py "Alpha Beta Gamma").
    rewrite H3', H4. reflexivity.
Qed.

Lemma wrap_greedy_and_newlines_witness :
  (courier (py "Alpha") (py "Courier") 10 <= 60
   /\ courier (py "Alpha Beta") (py "Courier") 10 <= 60
   /\ ~ courier (py "Alpha Beta Gamma") (py "Courier") 10 <= 60
   /\ courier (py "Gamma") (py "Courier") 10 <= 60)
  /\ wrap_text courier 60 (py "Courier") 10 (py "Alpha Beta Gamma")
     = [py "Alpha Beta"; py "Gamma"].
Proof.
  assert (H1 : courier (py "Alpha") (py "Courier") 10 <= 60)
    by (apply Qle_bool_iff; vm_compute; reflexivity).
  assert (H2 : courier (py "Alpha Beta") (py "Courier") 10 <= 60)
    by (apply Qle_bool_iff; vm_compute; reflexivity).
  assert (H3 : ~ courier (py "Alpha Beta Gamma") (py "Courier") 10 <= 60).
  { intros H. apply Qle_bool_iff in H. vm_compute in H. discriminate. }
  assert (H4 : courier (py "Gamma") (py "Courier") 10 <= 60)
    by (apply Qle_bool_iff; vm_compute; reflexivity).
  split; [repeat split; assumption|].
  exact (proj2 (proj2 (proj2
    (wrap_greedy_and_newlines courier 60 (py "Courier") 10))) H1 H2 H3 H4).
Defined.

(** C5 fails on a word wider than the box: after ["ab"] in a box three
    characters wide, ["cdefg"] does not fit behind ["ab"], and the new line
    is not started with that word: the word is cut into ["cde"] and ["fg"],
    both closed, and no line is pending. It fails too on a word of white
    space: behind ["a"] in a box one character wide, ["a" + space + tab] is
    too wide, yet the line is not closed, because the candidate measured is
    stripped. *)
Lemma wrap_greedy_counterexample :
  let font := py "Courier" in
  (wrap_loop courier 18 font 10 (words_of (py "ab")) = ([], py "ab")
   /\ ~ courier (py "ab" ++ [SPACE] ++ py "cdefg") font 10 <= 18
   /\ wrap_loop courier 18 font 10 (words_of (py "ab" ++ [SPACE] ++ py "cdefg"))
      = ([py "ab"; py "cde"; py "fg"], [])
   /\ wrap_loop courier 18 font 10 (words_of (py "ab" ++ [SPACE] ++ py "cdefg"))
      <> ([py "ab"], py "cdefg"))
  /\ (wrap_loop courier 6 font 10 (words_of (py "a")) = ([], py "a")
      /\ ~ courier (py "a" ++ [SPACE] ++ [9%N]) font 10 <= 6
      /\ wrap_loop courier 6 font 10 (words_of (py "a" ++ [SPACE] ++ [9%N]))
         = ([], py "a")).
Proof.
  intros font.
  assert (Hw : forall s w, Qle_bool (courier s font 10) w = false ->
                           ~ courier s font 10 <= w).
  { intros s w E H. apply Qle_bool_iff in H. congruence. }
  split; [split; [|split; [|split]] | split; [|split]].
  - vm_compute. reflexivity.
  - apply Hw. vm_compute. reflexivity.
  - vm_compute. reflexivity.
  - vm_compute. discriminate.
  - vm_compute. reflexivity.
  - apply Hw. vm_compute. reflexivity.
  - vm_compute. reflexivity.
Qed.

(** ** Lines as groups of words *)

Lemma last_In (s : str) (d : char) : s <> [] -> In (last s d) s.
Proof.
  induction s as [|c t IH]; [congruence|]. intros _.
  destruct t as [|c' t']; [left; reflexivity|].
  right. apply IH. discriminate.
Qed.

Lemma plain_tidy (word : str) : plain word -> tidy word.
Proof.
  intros (Hne & Hall). rewrite Forall_forall in Hall. repeat split.
  - exact Hne.
  - destruct word; [congruence|]. apply Hall. left. reflexivity.
  - apply Hall, last_In, Hne.
Qed.

Lemma plain_no_space (word : str) : plain word -> ~ In SPACE word.
Proof.
  intros (_ & Hall) Hin. rewrite Forall_forall in Hall.
  apply Hall in Hin. discriminate.
Qed.

Lemma plain_no_newline (word : str) : plain word -> ~ In NEWLINE word.
Proof.
  intros (_ & Hall) Hin. rewrite Forall_forall in Hall.
  apply Hall in Hin. discriminate.
Qed.

Lemma join_space_cons (x : str) (rest : list str) :
  rest <> [] -> join_space (x :: rest) = x ++ SPACE :: join_space rest.
Proof. destruct rest; [congruence | reflexivity]. Qed.

Lemma join_space_app (a b : list str) :
  a <> [] -> b <> [] ->
  join_space (a ++ b) = join_space a ++ SPACE :: join_space b.
Proof.
  induction a as [|x a IH]; intros Ha Hb; [congruence|].
  destruct a as [|y a'].
  - cbn [app]. rewrite join_space_cons by exact Hb. reflexivity.
  - rewrite <- app_comm_cons.
    rewrite join_space_cons by discriminate.
    rewrite IH by (discriminate || exact Hb).
    rewrite (join_space_cons x (y :: a')) by discriminate.
    rewrite <- app_assoc. reflexivity.
Qed.

Lemma join_space_tidy (g : list str) :
  g <> [] -> Forall plain g -> tidy (join_space g).
Proof.
  induction g as [|x g IH]; intros Hne Hall; [congruence|].
  inversion Hall as [|? ? Hx Hg]; subst.
  destruct g as [|y g'].
  - apply plain_tidy. exact Hx.
  - rewrite join_space_cons by discriminate.
    change (x ++ SPACE :: join_space (y :: g'))
      with (x ++ [SPACE] ++ join_space (y :: g')).
    apply tidy_join; [apply plain_tidy; exact Hx|].
    apply IH; [discriminate | exact Hg].
Qed.

Lemma words_of_join (xs : list str) :
  xs <> [] -> Forall plain xs -> words_of (join_space xs) = xs.
Proof.
  induction xs as [|x xs IH]; intros Hne Hall; [congruence|].
  inversion Hall as [|? ? Hx Hxs]; subst.
  destruct xs as [|y xs'].
  - apply words_of_word; [apply plain_no_space | apply plain_no_newline]; exact Hx.
  - rewrite join_space_cons by discriminate.
    rewrite words_of_app_space, IH by (discriminate || exact Hxs).
    rewrite words_of_word;
      [reflexivity | apply plain_no_space | apply plain_no_newline]; exact Hx.
Qed.

Lemma join_space_concat (groups : list (list str)) :
  Forall (fun g => g <> []) groups ->
  join_space (map join_space groups) = join_space (List.concat groups).
Proof.
  induction groups as [|g groups IH]; intros Hall; [reflexivity|].
  inversion Hall as [|? ? Hg Hgs]; subst.
  destruct groups as [|g' groups'].
  - simpl. rewrite app_nil_r. reflexivity.
  - cbn [map List.concat] in *. rewrite join_space_cons by discriminate.
    rewrite IH by exact Hgs. symmetry. apply join_space_app; [exact Hg|].
    inversion Hgs; subst. destruct g'; [congruence | discriminate].
Qed.

Section Groups.

Variable stringWidth : str -> str -> Q -> Q.
Variable max_width : Q.
Variable font_name : str.
Variable font_size : Q.

Let step := wrap_step stringWidth max_width font_name font_size.
Let fitsb (s : str) := Qle_bool (stringWidth s font_name font_size) max_width.

(** A word that fits the width is either joined to the pending group or
    starts a group of its own. *)
Lemma wrap_step_group (groups : list (list str)) (g : list str) (x : str) :
  Forall plain g -> plain x -> fitsb x = true ->
  exists groups1 g1,
    step (map join_space groups, join_space g) x
    = (map join_space (groups ++ groups1), join_space g1)
    /\ g1 <> [] /\ Forall plain g1
    /\ Forall (fun g => g <> [] /\ Forall plain g) groups1
    /\ List.concat groups1 ++ g1 = g ++ [x].
Proof.
  intros Hg Hx Hfit.
  assert (Hnl : x <> [NEWLINE]).
  { intros ->. apply (plain_no_newline _ Hx). left. reflexivity. }
  unfold step. rewrite (wrap_step_word _ _ _ _ _ _ _ (proj1 Hx) Hnl).
  destruct g as [|y g'].
  - exists [], [x]. change (test_line_of (join_space []) x) with x.
    fold (fitsb x). rewrite Hfit, app_nil_r.
    repeat split; try discriminate; auto.
  - assert (Htidy : tidy (join_space (y :: g')))
      by (apply join_space_tidy; [discriminate | exact Hg]).
    rewrite (test_line_tidy _ _ Htidy (plain_tidy _ Hx)).
    assert (Ejoin : join_space (y :: g') ++ [SPACE] ++ x = join_space ((y :: g') ++ [x])).
    { symmetry. apply join_space_app; discriminate. }
    rewrite Ejoin.
    destruct (Qle_bool _ max_width) eqn:E.
    + exists [], ((y :: g') ++ [x]). rewrite app_nil_r.
      repeat split; try discriminate; auto.
      apply Forall_app. split; [exact Hg | auto].
    + fold (fitsb x). rewrite Hfit.
      exists [y :: g'], [x]. rewrite (truthy_true _ (proj1 Htidy)).
      rewrite map_app. repeat split; try discriminate; auto.
      * constructor; [|constructor]. split; [discriminate | exact Hg].
      * simpl. rewrite app_nil_r. reflexivity.
Qed.

Lemma wrap_fold_groups (words : list str) :
  forall (groups : list (list str)) (g : list str),
  Forall (fun x => plain x /\ fitsb x = true) words ->
  Forall (fun g => g <> [] /\ Forall plain g) groups ->
  Forall plain g ->
  exists groups' g',
    fold_left step words (map join_space groups, join_space g)
    = (map join_space groups', join_space g')
    /\ Forall (fun g => g <> [] /\ Forall plain g) groups'
    /\ Forall plain g'
    /\ List.concat groups' ++ g' = List.concat groups ++ g ++ words.
Proof.
  induction words as [|x words IH]; intros groups g Hwords Hgroups Hg.
  - exists groups, g. rewrite app_nil_r. repeat split; assumption.
  - inversion Hwords as [|? ? [Hx Hfit] Hrest]; subst.
    destruct (wrap_step_group groups g x Hg Hx Hfit)
      as (groups1 & g1 & Estep & _ & Hg1 & Hgroups1 & Econcat).
    cbn [fold_left]. rewrite Estep.
    destruct (IH (groups ++ groups1) g1 Hrest) as (groups' & g' & Efold & H1 & H2 & H3).
    { apply Forall_app. split; assumption. }
    { exact Hg1. }
    exists groups', g'. repeat split; try assumption.
    rewrite H3, concat_app, <- !app_assoc. f_equal.
    rewrite (app_assoc (List.concat groups1)), Econcat, <- app_assoc. reflexivity.
Qed.

Lemma wrap_fold_skip_empty (words : list str) : forall st,
  fold_left step words st = fold_left step (filter truthy words) st.
Proof.
  induction words as [|x words IH]; intros st; [reflexivity|].
  cbn [fold_left filter]. destruct x as [|c x'].
  - cbn [truthy]. unfold step at 2. rewrite wrap_step_empty. apply IH.
  - cbn [truthy fold_left]. apply IH.
Qed.

(** The lines of a text of plain words that fit are groups of its words,
    in order. *)
Lemma wrap_loop_groups (words : list str) :
  Forall (fun x => plain x /\ fitsb x = true) words ->
  exists groups,
    flush (fold_left step words ([], [])) = map join_space groups
    /\ Forall (fun g => g <> [] /\ Forall plain g) groups
    /\ List.concat groups = words.
Proof.
  intros Hwords.
  destruct (wrap_fold_groups words [] [] Hwords (Forall_nil _) (Forall_nil _))
    as (groups & g & Efold & Hgroups & Hg & Econcat).
  change (map join_space [], join_space []) with (@nil str, @nil char) in Efold.
  rewrite Efold. simpl in Econcat. destruct g as [|y g'].
  - exists groups. rewrite app_nil_r in Econcat. repeat split; assumption.
  - exists (groups ++ [y :: g']).
    assert (Htidy : tidy (join_space (y :: g')))
      by (apply join_space_tidy; [discriminate | exact Hg]).
    unfold flush. rewrite (truthy_true _ (proj1 Htidy)), map_app.
    repeat split.
    + apply Forall_app. split; [exact Hgroups|].
      constructor; [|constructor]. split; [discriminate | exact Hg].
    + rewrite concat_app. simpl. rewrite app_nil_r. exact Econcat.
Qed.

End Groups.

(** ** Texts whose white space is the space *)

Lemma only_spacesb_true (text : str) : only_spacesb text = true -> only_spaces text.
Proof.
  unfold only_spacesb, only_spaces. rewrite forallb_forall, Forall_forall.
  intros H c Hin Hsp. specialize (H c Hin). rewrite Hsp in H.
  simpl in H. apply N.eqb_eq. exact H.
Qed.

Lemma only_spaces_and_newlinesb_true (text : str) :
  only_spaces_and_newlinesb text = true -> only_spaces_and_newlines text.
Proof.
  unfold only_spaces_and_newlinesb, only_spaces_and_newlines.
  rewrite forallb_forall, Forall_forall.
  intros H c Hin Hsp. specialize (H c Hin). rewrite Hsp in H.
  simpl in H. apply orb_true_iff in H. destruct H as [H|H];
    apply N.eqb_eq in H; [left | right]; exact H.
Qed.

Lemma split_space_chars (s : str) : forall (x : str) (c : char),
  In x (split_space s) -> In c x -> In c s /\ c <> SPACE.
Proof.
  induction s as [|c0 t IH]; intros x c Hx Hc.
  - destruct Hx as [<-|[]]. destruct Hc.
  - simpl in Hx. destruct (N.eqb_spec c0 SPACE) as [E|E].
    + destruct Hx as [<-|Hx]; [destruct Hc|].
      destruct (IH x c Hx Hc) as [H1 H2]. split; [right; exact H1 | exact H2].
    + pose proof (split_space_nonempty t) as Hne.
      destruct (split_space t) as [|w ws]; [congruence|].
      destruct Hx as [<-|Hx].
      * destruct Hc as [<-|Hc]; [split; [left; reflexivity | exact E]|].
        destruct (IH w c (or_introl eq_refl) Hc) as [H1 H2].
        split; [right; exact H1 | exact H2].
      * destruct (IH x c (or_intror Hx) Hc) as [H1 H2].
        split; [right; exact H1 | exact H2].
Qed.

Lemma only_spaces_words (text : str) :
  only_spaces text ->
  forall x, In x (words_of text) -> x <> [] -> plain x.
Proof.
  intros Honly x Hx Hne. unfold only_spaces in Honly. rewrite Forall_forall in Honly.
  assert (Hnl : ~ In NEWLINE text).
  { intros Hin. specialize (Honly _ Hin eq_refl). discriminate. }
  unfold words_of in Hx. rewrite (replace_char_absent _ _ _ Hnl) in Hx.
  split; [exact Hne|]. rewrite Forall_forall. intros c Hc.
  destruct (split_space_chars _ _ _ Hx Hc) as [Hin Hsp].
  destruct (isspace c) eqn:E; [|reflexivity].
  exfalso. apply Hsp. apply Honly; assumption.
Qed.

(** C7, as the code has it. For a text whose only white space is the space
    (no newline, no tab, ...) and whose words are each at most [max_width]
    wide, joining the lines of [wrap_text] with single spaces and wrapping
    again at the same width, font and size gives the same lines. *)
Theorem wrap_rewrap_idempotent
    (stringWidth : str -> str -> Q -> Q) (max_width : Q) (font_name : str)
    (font_size : Q) (text : str) :
  only_spaces text ->
  (forall word, In word (words_of text) -> word <> [] ->
                stringWidth word font_name font_size <= max_width) ->
  wrap_text stringWidth max_width font_name font_size
    (join_space (wrap_text stringWidth max_width font_name font_size text))
  = wrap_text stringWidth max_width font_name font_size text.
Proof.
  intros Honly Hfit.
  set (words := filter truthy (words_of text)).
  assert (Hwords : Forall (fun x => plain x
            /\ Qle_bool (stringWidth x font_name font_size) max_width = true) words).
  { rewrite Forall_forall. intros x Hx. apply filter_In in Hx. destruct Hx as [Hin Ht].
    assert (Hne : x <> []) by (destruct x; [discriminate | discriminate]).
    split; [apply (only_spaces_words text Honly x Hin Hne)|].
    apply Qle_bool_iff. apply Hfit; assumption. }
  destruct (wrap_loop_groups stringWidth max_width font_name font_size words Hwords)
    as (groups & Eflush & Hgroups & Econcat).
  assert (Ewrap : wrap_text stringWidth max_width font_name font_size text
                  = map join_space groups).
  { rewrite wrap_text_loop. unfold wrap_loop.
    rewrite wrap_fold_skip_empty. exact Eflush. }
  rewrite Ewrap.
  assert (Hne : Forall (fun g => g <> []) groups).
  { apply Forall_impl with (2 := Hgroups). intros a [H _]. exact H. }
  destruct groups as [|g groups']; [reflexivity|].
  assert (Hwne : words <> []).
  { rewrite <- Econcat. inversion Hne as [|? ? Hg _]; subst.
    destruct g; [congruence | discriminate]. }
  rewrite (join_space_concat _ Hne), Econcat.
  assert (Hplain : Forall plain words).
  { apply Forall_impl with (2 := Hwords). intros a [H _]. exact H. }
  rewrite wrap_text_loop, (words_of_join words Hwne Hplain).
  exact Eflush.
Qed.

Lemma wrap_rewrap_idempotent_witness :
  let text := py "Alpha Beta Gamma" in
  let font := py "Courier" in
  (only_spaces text
   /\ forall word, In word (words_of text) -> word <> [] ->
                   courier word font 10 <= 60)
  /\ wrap_text courier 60 font 10 (join_space (wrap_text courier 60 font 10 text))
     = wrap_text courier 60 font 10 text.
Proof.
  intros text font.
  assert (H1 : only_spaces text)
    by (apply only_spacesb_true; vm_compute; reflexivity).
  assert (H2 : forall word, In word (words_of text) -> word <> [] ->
                            courier word font 10 <= 60).
  { intros word Hin _. vm_compute in Hin.
    destruct Hin as [<-|[<-|[<-|[]]]]; apply Qle_bool_iff; vm_compute; reflexivity. }
  split; [split; assumption|].
  exact (wrap_rewrap_idempotent courier 60 font 10 text H1 H2).
Defined.

(** C7 fails on a newline: the two lines of a text broken by a newline are
    one line once joined by a space. It fails on a word wider than the box:
    ["abcd e"] in a box three characters wide gives ["abc"], ["d"], ["e"],
    and ["abc d e"] gives ["abc"], ["d e"]. *)
Lemma wrap_rewrap_counterexample :
  let font := py "Courier" in
  let wrap := wrap_text courier in
  (wrap 600 font 10 (py "a" ++ [NEWLINE] ++ py "b") = [py "a"; py "b"]
   /\ wrap 600 font 10 (join_space [py "a"; py "b"]) = [py "a b"])
  /\ (wrap 18 font 10 (py "abcd e") = [py "abc"; py "d"; py "e"]
      /\ wrap 18 font 10 (join_space [py "abc"; py "d"; py "e"])
         = [py "abc"; py "d e"]).
Proof. vm_compute. repeat split. Qed.

(** ** A wider test never needs more lines *)

Lemma line_count_pair (lines : list str) (current : str) :
  line_count (lines, current)
  = (List.length lines + if truthy current then 1 else 0)%nat.
Proof.
  unfold line_count, flush. destruct (truthy current).
  - rewrite length_app. reflexivity.
  - lia.
Qed.

Lemma not_behind_le (st st' : list str * str) :
  not_behind st st' -> (line_count st' <= line_count st)%nat.
Proof. intros [H|[H _]]; lia. Qed.

Lemma not_behind_intro (st st' : list str * str) :
  (line_count st' <= line_count st)%nat ->
  (line_count st' = line_count st ->
   snd st = [] \/ exists p, snd st = p ++ snd st') ->
  not_behind st st'.
Proof.
  intros Hle H. destruct (Nat.eq_dec (line_count st') (line_count st)) as [E|E].
  - right. split; [exact E | exact (H E)].
  - left. lia.
Qed.

Section Simulation.

Variable stringWidth : str -> str -> Q -> Q.
Variable font_name : str.
(** The narrower test: width [w] at size [s]; the wider: [w'] at [s']. *)
Variables w s w' s' : Q.

Let F (x : str) := Qle_bool (stringWidth x font_name s) w.
Let F' (x : str) := Qle_bool (stringWidth x font_name s') w'.

Hypothesis wider : forall x, F x = true -> F' x = true.
Hypothesis suffix_fits : forall p x, F (p ++ x) = true -> F x = true.

Let bstep := break_step stringWidth w font_name s.
Let bstep' := break_step stringWidth w' font_name s'.
Let brk := _break_long_word stringWidth w font_name s.
Let brk' := _break_long_word stringWidth w' font_name s'.
Let step := wrap_step stringWidth w font_name s.
Let step' := wrap_step stringWidth w' font_name s'.

Lemma wider_false (x : str) : F' x = false -> F x = false.
Proof.
  intros H. destruct (F x) eqn:E; [|reflexivity].
  apply wider in E. congruence.
Qed.

(** *** Breaking a word *)

Lemma bstep_eq (result : list str) (current : str) (ch : char) :
  bstep (result, current) ch
  = if F (current ++ [ch]) then (result, current ++ [ch])
    else (flush (result, current), [ch]).
Proof. reflexivity. Qed.

Lemma bstep'_eq (result : list str) (current : str) (ch : char) :
  bstep' (result, current) ch
  = if F' (current ++ [ch]) then (result, current ++ [ch])
    else (flush (result, current), [ch]).
Proof. reflexivity. Qed.

Lemma line_count_snoc (result : list str) (current : str) (ch : char) :
  line_count (result, current ++ [ch]) = S (List.length result).
Proof.
  rewrite line_count_pair. destruct current; simpl; lia.
Qed.

Lemma line_count_fresh (st : list str * str) (c : char) (x : str) :
  line_count (flush st, c :: x) = S (line_count st).
Proof. rewrite line_count_pair. unfold line_count. simpl. lia. Qed.

Lemma break_step_sim (st st' : list str * str) (ch : char) :
  (snd st' = [] <-> snd st = []) -> not_behind st st' ->
  (snd (bstep' st' ch) = [] <-> snd (bstep st ch) = [])
  /\ not_behind (bstep st ch) (bstep' st' ch).
Proof.
  destruct st as [res cur], st' as [res' cur']. cbn [snd]. intros Hiff Hnb.
  rewrite bstep_eq, bstep'_eq.
  assert (Hcur : forall (r : list str) (c : str), snd (r, c ++ [ch]) <> []).
  { intros r c. cbn [snd]. destruct c; discriminate. }
  split.
  { destruct (F' (cur' ++ [ch])), (F (cur ++ [ch])); cbn [snd]; split; intros H;
      try discriminate; exfalso; destruct cur, cur'; discriminate. }
  destruct cur' as [|c' cur'].
  - (* nothing pending on either side *)
    assert (cur = []) as -> by (apply Hiff; reflexivity).
    pose proof (not_behind_le _ _ Hnb) as Hle. rewrite !line_count_pair in Hle.
    cbn [truthy] in Hle. cbn [app].
    apply not_behind_intro.
    + destruct (F' [ch]), (F [ch]); rewrite !line_count_pair; unfold flush;
        cbn [truthy List.length]; lia.
    + intros _. right. exists [].
      destruct (F' [ch]), (F [ch]); reflexivity.
  - destruct cur as [|c cur].
    { exfalso. assert (c' :: cur' = []) by (apply Hiff; reflexivity). discriminate. }
    pose proof (not_behind_le _ _ Hnb) as Hle.
    rewrite !line_count_pair in Hle. cbn [truthy] in Hle.
    destruct (F' ((c' :: cur') ++ [ch])) eqn:E'; destruct (F ((c :: cur) ++ [ch])) eqn:E.
    + apply not_behind_intro.
      * rewrite !line_count_snoc. lia.
      * intros Heq. rewrite !line_count_snoc in Heq. right.
        destruct Hnb as [Hlt|[_ [Hp|[p Hp]]]].
        -- rewrite !line_count_pair in Hlt. cbn [truthy] in Hlt. lia.
        -- discriminate.
        -- cbn [snd] in *. exists p. rewrite Hp, app_assoc. reflexivity.
    + left. rewrite line_count_snoc, line_count_fresh, line_count_pair.
      cbn [truthy]. lia.
    + apply not_behind_intro.
      * rewrite line_count_snoc, line_count_fresh, line_count_pair. cbn [truthy].
        destruct Hnb as [Hlt|[_ [Hp|[p Hp]]]].
        -- rewrite !line_count_pair in Hlt. cbn [truthy] in Hlt. lia.
        -- discriminate.
        -- exfalso. cbn [snd] in Hp. rewrite Hp, <- app_assoc in E.
           apply suffix_fits, wider in E. congruence.
      * intros _. right. exists (c :: cur). reflexivity.
    + apply not_behind_intro.
      * rewrite !line_count_fresh, !line_count_pair. cbn [truthy]. lia.
      * intros _. right. exists []. reflexivity.
Qed.

Lemma break_fold_sim (word : str) : forall (st st' : list str * str),
  (snd st' = [] <-> snd st = []) -> not_behind st st' ->
  not_behind (fold_left bstep word st) (fold_left bstep' word st').
Proof.
  induction word as [|ch word IH]; intros st st' Hiff Hnb; [exact Hnb|].
  cbn [fold_left].
  destruct (break_step_sim st st' ch Hiff Hnb) as [Hiff1 Hnb1].
  apply IH; assumption.
Qed.

(** The wider test cuts a word into no more pieces. *)
Lemma break_mono (word : str) :
  (List.length (brk' word) <= List.length (brk word))%nat.
Proof.
  apply (not_behind_le (fold_left bstep word ([], [])) (fold_left bstep' word ([], []))).
  apply break_fold_sim; [reflexivity|].
  right. split; [reflexivity | left; reflexivity].
Qed.

Lemma break_fold_pending (word : str) : forall (st : list str * str),
  snd st <> [] \/ word <> [] -> snd (fold_left bstep word st) <> [].
Proof.
  induction word as [|ch word IH]; intros st H.
  - destruct H as [H|H]; [exact H | congruence].
  - cbn [fold_left]. apply IH. left.
    destruct st as [res cur]. rewrite bstep_eq.
    destruct (F (cur ++ [ch])); cbn [snd]; [destruct cur|]; discriminate.
Qed.

Lemma break_nonempty (word : str) : word <> [] -> (1 <= List.length (brk word))%nat.
Proof.
  intros Hne. unfold brk, _break_long_word. fold bstep.
  pose proof (break_fold_pending word ([], []) (or_intror Hne)) as Hp.
  destruct (fold_left bstep word ([], [])) as [res cur]. cbn [snd] in Hp.
  unfold flush. rewrite (truthy_true _ Hp), length_app. simpl. lia.
Qed.

End Simulation.

(** *** One word *)

Section StepOutcome.

Variable stringWidth : str -> str -> Q -> Q.
Variable font_name : str.
Variables w s : Q.

Let F (x : str) := Qle_bool (stringWidth x font_name s) w.
Let brk := _break_long_word stringWidth w font_name s.
Let step := wrap_step stringWidth w font_name s.

Lemma line_count_pending (lines : list str) (current : str) :
  current <> [] -> line_count (lines, current) = S (List.length lines).
Proof.
  intros H. rewrite line_count_pair, (truthy_true _ H). lia.
Qed.

Lemma line_count_closed (st : list str * str) (pieces : list str) :
  line_count (flush st ++ pieces, []) = (line_count st + List.length pieces)%nat.
Proof.
  rewrite line_count_pair, length_app. unfold line_count. simpl. lia.
Qed.

Lemma line_count_next (st : list str * str) (x : str) :
  x <> [] -> line_count (flush st, x) = S (line_count st).
Proof. intros H. rewrite (line_count_pending _ _ H). reflexivity. Qed.

(** What a plain word does to a state whose pending line is empty or
    tidy: it is kept on the pending line, or it starts a line, or it is
    broken. *)
Lemma step_outcome (lines : list str) (c x : str) :
  plain x -> c = [] \/ tidy c ->
  let st := (lines, c) in
  let t := if truthy c then c ++ [SPACE] ++ x else x in
  (snd (step st x) = [] \/ tidy (snd (step st x)))
  /\ ((F t = true /\ step st x = (lines, t)
       /\ line_count (step st x)
          = (line_count st + if truthy c then 0 else 1)%nat)
      \/ (F t = false /\ F x = true /\ step st x = (flush st, x)
          /\ line_count (step st x) = S (line_count st))
      \/ (F t = false /\ F x = false /\ step st x = (flush st ++ brk x, [])
          /\ line_count (step st x) = (line_count st + List.length (brk x))%nat)).
Proof.
  intros Hx Hc st t.
  assert (Hnl : x <> [NEWLINE]).
  { intros ->. apply (plain_no_newline _ Hx). left. reflexivity. }
  assert (Et : test_line_of c x = t).
  { destruct Hc as [->|Hc]; [reflexivity|].
    rewrite (test_line_tidy _ _ Hc (plain_tidy _ Hx)).
    unfold t. rewrite (truthy_true _ (proj1 Hc)). reflexivity. }
  assert (Htidy : tidy t).
  { unfold t. destruct Hc as [->|Hc]; [apply plain_tidy; exact Hx|].
    rewrite (truthy_true _ (proj1 Hc)).
    apply tidy_join; [exact Hc | apply plain_tidy; exact Hx]. }
  unfold step, st.
  rewrite (wrap_step_word _ _ _ _ _ _ _ (proj1 Hx) Hnl), Et.
  fold (F t) (F x) (brk x).
  change (if truthy c then lines ++ [c] else lines) with (flush (lines, c)).
  destruct (F t) eqn:E1; [|destruct (F x) eqn:E2].
  - split; [right; exact Htidy|]. left. repeat split.
    rewrite (line_count_pending _ _ (proj1 Htidy)), line_count_pair.
    destruct (truthy c); lia.
  - split; [right; apply plain_tidy; exact Hx|]. right. left. repeat split.
    apply line_count_next. exact (proj1 Hx).
  - split; [left; reflexivity|]. right. right. repeat split.
    apply line_count_closed.
Qed.

Lemma step_newline_count (st : list str * str) :
  line_count (step st [NEWLINE]) = line_count st.
Proof.
  unfold step. rewrite wrap_step_newline, line_count_pair.
  destruct st as [lines c]. unfold line_count, close_line, flush.
  destruct (truthy c); rewrite ?length_app; simpl; lia.
Qed.

End StepOutcome.

Section WordSimulation.

Variable stringWidth : str -> str -> Q -> Q.
Variable font_name : str.
Variables w s w' s' : Q.

Let F (x : str) := Qle_bool (stringWidth x font_name s) w.
Let F' (x : str) := Qle_bool (stringWidth x font_name s') w'.

Hypothesis wider : forall x, F x = true -> F' x = true.
Hypothesis suffix_fits : forall p x, F (p ++ x) = true -> F x = true.

Let step := wrap_step stringWidth w font_name s.
Let step' := wrap_step stringWidth w' font_name s'.

(** The two loops, run on the same tokens, stay in step. *)
Let in_step (st st' : list str * str) : Prop :=
  (snd st' = [] -> snd st = [])
  /\ (snd st = [] \/ tidy (snd st))
  /\ (snd st' = [] \/ tidy (snd st'))
  /\ not_behind st st'.

Lemma candidate_suffix (c x : str) :
  exists p, (if truthy c then c ++ [SPACE] ++ x else x) = p ++ x.
Proof.
  destruct (truthy c); [exists (c ++ [SPACE]) | exists []].
  - rewrite <- app_assoc. reflexivity.
  - reflexivity.
Qed.

Lemma wrap_step_sim_plain (st st' : list str * str) (x : str) :
  plain x -> in_step st st' -> in_step (step st x) (step' st' x).
Proof.
  intros Hx (Hidle & Hc & Hc' & Hnb).
  destruct st as [lines c], st' as [lines' c']. cbn [snd] in Hidle, Hc, Hc'.
  pose proof (not_behind_le _ _ Hnb) as Hle.
  pose proof (break_mono stringWidth font_name w s w' s' wider suffix_fits x) as Hmono.
  pose proof (break_nonempty stringWidth font_name w s x (proj1 Hx)) as Hn.
  pose proof (break_nonempty stringWidth font_name w' s' x (proj1 Hx)) as Hn'.
  destruct (step_outcome stringWidth font_name w s lines c x Hx Hc) as [Ht O].
  destruct (step_outcome stringWidth font_name w' s' lines' c' x Hx Hc') as [Ht' O'].
  cbv beta zeta in O, O', Ht, Ht'. fold step in O, Ht. fold step' in O', Ht'.
  set (t := if truthy c then c ++ [SPACE] ++ x else x) in *.
  set (t' := if truthy c' then c' ++ [SPACE] ++ x else x) in *.
  assert (Htne : t <> []).
  { unfold t. destruct c; [exact (proj1 Hx) | discriminate]. }
  assert (Htne' : t' <> []).
  { unfold t'. destruct c'; [exact (proj1 Hx) | discriminate]. }
  assert (Hkeep : F t = true -> F x = true).
  { destruct (candidate_suffix c x) as [p Hp]. fold t in Hp. rewrite Hp.
    apply suffix_fits. }
  split; [|split; [exact Ht | split; [exact Ht'|]]].
  - (* idle on the wide side only after a broken word *)
    destruct O' as [(_ & E' & _)|[(_ & _ & E' & _)|(_ & Fx' & E' & _)]];
      rewrite E'; cbn [snd]; intros H; try congruence.
    + exfalso. exact (proj1 Hx H).
    + fold (F' x) in Fx'.
      assert (Fx : F x = false).
      { destruct (F x) eqn:E; [|reflexivity]. apply wider in E. congruence. }
      destruct O as [(Ft & _)|[(_ & Fx2 & _)|(_ & _ & E & _)]].
      * fold (F t) in Ft. apply Hkeep in Ft. congruence.
      * fold (F x) in Fx2. congruence.
      * rewrite E. reflexivity.
  - destruct O' as [(Ft' & E' & N')|[(Ft' & Fx' & E' & N')|(Ft' & Fx' & E' & N')]];
      destruct O as [(Ft & E & N)|[(Ft & Fx & E & N)|(Ft & Fx & E & N)]];
      fold (F t) in Ft; fold (F' t') in Ft'; try fold (F x) in Fx;
      try fold (F' x) in Fx'.
    + (* kept, kept *)
      apply not_behind_intro.
      * rewrite N, N'. destruct c' as [|a' c'0]; cbn [truthy].
        -- specialize (Hidle eq_refl). subst c. cbn [truthy]. lia.
        -- destruct (truthy c); lia.
      * rewrite N, N', E, E'. cbn [snd]. intros Heq. right.
        destruct c' as [|a' c'0].
        -- specialize (Hidle eq_refl). subst c. exists []. reflexivity.
        -- destruct c as [|a c0]; cbn [truthy] in Heq; [lia|].
           destruct Hnb as [Hlt|[_ [Hp|[p Hp]]]]; [lia | discriminate |].
           cbn [snd] in Hp. exists p. unfold t, t'. cbn [truthy].
           rewrite Hp, <- app_assoc. reflexivity.
    + (* kept on the wide side, a new line on the narrow side *)
      apply not_behind_intro.
      * rewrite N, N'. destruct (truthy c'); lia.
      * rewrite N, N', E, E'. cbn [snd]. intros Heq. right.
        destruct c' as [|a' c'0]; cbn [truthy] in Heq; [|lia].
        exists []. reflexivity.
    + (* kept on the wide side, broken on the narrow side *)
      apply not_behind_intro.
      * rewrite N, N'. destruct (truthy c'); lia.
      * rewrite E. cbn [snd]. intros _. left. reflexivity.
    + (* a new line on the wide side, kept on the narrow side *)
      destruct c' as [|a' c'0].
      { unfold t' in Ft'. cbn [truthy] in Ft'. congruence. }
      destruct c as [|a c0].
      * apply not_behind_intro.
        -- rewrite N, N'. cbn [truthy]. lia.
        -- rewrite E, E'. cbn [snd]. intros _. right. exists []. reflexivity.
      * assert (Hlt : (line_count (lines', a' :: c'0) < line_count (lines, a :: c0))%nat).
        { destruct Hnb as [Hlt|[_ [Hp|[p Hp]]]]; [exact Hlt | discriminate |].
          exfalso. cbn [snd] in Hp.
          assert (Et : t = p ++ t').
          { unfold t, t'. cbn [truthy]. rewrite Hp, <- app_assoc. reflexivity. }
          rewrite Et in Ft. apply suffix_fits, wider in Ft. congruence. }
        apply not_behind_intro.
        -- rewrite N, N'. cbn [truthy]. rewrite Nat.add_0_r. exact Hlt.
        -- rewrite E, E'. cbn [snd]. intros _. right.
           destruct (candidate_suffix (a :: c0) x) as [p Hp]. exists p. exact Hp.
    + (* a new line on both sides *)
      apply not_behind_intro.
      * rewrite N, N'. lia.
      * rewrite E, E'. cbn [snd]. intros _. right. exists []. reflexivity.
    + (* a new line on the wide side, broken on the narrow side *)
      apply not_behind_intro.
      * rewrite N, N'. lia.
      * rewrite E. cbn [snd]. intros _. left. reflexivity.
    + (* broken on the wide side: the word does not fit the narrow one *)
      exfalso. apply Hkeep in Ft. apply wider in Ft. congruence.
    + exfalso. apply wider in Fx. congruence.
    + apply not_behind_intro.
      * rewrite N, N'. lia.
      * rewrite E. cbn [snd]. intros _. left. reflexivity.
Qed.

Lemma wrap_step_sim (st st' : list str * str) (x : str) :
  token x -> in_step st st' -> in_step (step st x) (step' st' x).
Proof.
  intros [->|[->|Hx]] Hin.
  - unfold step, step'. rewrite !wrap_step_empty. exact Hin.
  - destruct Hin as (_ & _ & _ & Hnb).
    pose proof (not_behind_le _ _ Hnb) as Hle.
    repeat split.
    + intros _. unfold step. rewrite wrap_step_newline. reflexivity.
    + left. unfold step. rewrite wrap_step_newline. reflexivity.
    + left. unfold step'. rewrite wrap_step_newline. reflexivity.
    + apply not_behind_intro.
      * unfold step, step'. rewrite !step_newline_count. exact Hle.
      * intros _. left. unfold step. rewrite wrap_step_newline. reflexivity.
  - apply wrap_step_sim_plain; assumption.
Qed.

Lemma wrap_fold_sim (words : list str) : forall (st st' : list str * str),
  Forall token words -> in_step st st' ->
  in_step (fold_left step words st) (fold_left step' words st').
Proof.
  induction words as [|x words IH]; intros st st' Hall Hin; [exact Hin|].
  inversion Hall as [|? ? Hx Hrest]; subst. cbn [fold_left].
  apply IH; [exact Hrest|]. apply wrap_step_sim; assumption.
Qed.

(** The wider test wraps the tokens into no more lines. *)
Lemma wrap_loop_mono (words : list str) :
  Forall token words ->
  (List.length (flush (wrap_loop stringWidth w' font_name s' words))
   <= List.length (flush (wrap_loop stringWidth w font_name s words)))%nat.
Proof.
  intros Hall.
  assert (Hin : in_step ([], []) ([], [])).
  { repeat split; try (left; reflexivity).
    right. split; [reflexivity | left; reflexivity]. }
  destruct (wrap_fold_sim words _ _ Hall Hin) as (_ & _ & _ & Hnb).
  exact (not_behind_le _ _ Hnb).
Qed.

End WordSimulation.

(** ** Height of the wrapped text *)

Lemma words_of_cons_plain (c : char) (t : str) :
  c <> SPACE -> c <> NEWLINE ->
  words_of (c :: t)
  = match words_of t with
    | w :: ws => (c :: w) :: ws
    | [] => [[c]]
    end.
Proof.
  intros Hs Hn. unfold words_of. rewrite replace_char_cons.
  destruct (N.eqb_spec NEWLINE c) as [E|_]; [congruence|].
  cbn [split_space]. destruct (N.eqb_spec c SPACE) as [E|_]; [congruence|].
  reflexivity.
Qed.

Lemma words_of_tokens (text : str) :
  only_spaces_and_newlines text ->
  Forall token (words_of text)
  /\ (hd [] (words_of text) = [] \/ plain (hd [] (words_of text))).
Proof.
  induction text as [|c t IH]; intros Hall.
  - split; [|left; reflexivity].
    constructor; [left; reflexivity | constructor].
  - inversion Hall as [|? ? Hc Ht]; subst. destruct (IH Ht) as [Htok Hhd].
    destruct (N.eq_dec c NEWLINE) as [->|Hn].
    { change (NEWLINE :: t) with ([] ++ NEWLINE :: t).
      rewrite words_of_app_newline. split; [|left; reflexivity].
      constructor; [left; reflexivity|].
      constructor; [right; left; reflexivity | exact Htok]. }
    destruct (N.eq_dec c SPACE) as [->|Hs].
    { change (SPACE :: t) with ([] ++ SPACE :: t).
      rewrite words_of_app_space. split; [|left; reflexivity].
      constructor; [left; reflexivity | exact Htok]. }
    assert (Hplain : isspace c = false).
    { destruct (isspace c) eqn:E; [|reflexivity].
      destruct (Hc eq_refl); congruence. }
    rewrite (words_of_cons_plain c t Hs Hn).
    pose proof (split_space_nonempty (replace [NEWLINE] [SPACE; NEWLINE; SPACE] t)) as Hne.
    fold (words_of t) in Hne.
    destruct (words_of t) as [|w0 ws]; [congruence|].
    cbn [hd] in Hhd. inversion Htok as [|? ? _ Hws]; subst.
    assert (Hcw : plain (c :: w0)).
    { split; [discriminate|]. constructor; [exact Hplain|].
      destruct Hhd as [->|[_ H]]; [constructor | exact H]. }
    split; [|right; exact Hcw].
    constructor; [right; right; exact Hcw | exact Hws].
Qed.

Lemma len_app {A : Type} (a b : list A) : len (a ++ b) == len a + len b.
Proof.
  unfold len. rewrite length_app, Nat2Z.inj_add, inject_Z_plus. reflexivity.
Qed.

Lemma len_le {A : Type} (a b : list A) :
  (List.length a <= List.length b)%nat -> len a <= len b.
Proof. intros H. unfold len. rewrite <- Zle_Qle. lia. Qed.

Lemma courier_monotone : monotone_metric courier.
Proof.
  split.
  - intros t font s1 s2 H0 Hle. unfold courier.
    pose proof (len_nonneg t). nra.
  - intros p t q font s H0. unfold courier. rewrite !len_app.
    pose proof (len_nonneg p). pose proof (len_nonneg t). pose proof (len_nonneg q).
    nra.
Qed.

(** With a monotone metric, a box at least as wide and a size at most as
    large wrap the text into no more lines. *)
Lemma wrap_count_monotone
    (stringWidth : str -> str -> Q -> Q) (text font_name : str) (w s w' s' : Q) :
  monotone_metric stringWidth ->
  only_spaces_and_newlines text ->
  w <= w' -> 0 <= s' -> s' <= s ->
  (List.length (wrap_text stringWidth w' font_name s' text)
   <= List.length (wrap_text stringWidth w font_name s text))%nat.
Proof.
  intros [Hsize Hext] Htext Hw Hs0 Hs.
  rewrite !wrap_text_loop.
  apply wrap_loop_mono.
  - intros x Hx. apply Qle_bool_iff. apply Qle_bool_iff in Hx.
    pose proof (Hsize x font_name s' s Hs0 Hs). lra.
  - intros p x Hx. apply Qle_bool_iff. apply Qle_bool_iff in Hx.
    assert (H0 : 0 <= s) by lra.
    pose proof (Hext p x [] font_name s H0) as H. rewrite app_nil_r in H. lra.
  - apply words_of_tokens. exact Htext.
Qed.

(** C6, as the code has it. For a text whose white space is spaces and
    newlines only, a monotone metric, a positive size and a positive
    spacing, the height of the wrapped text, [count(wrap_text(text, w,
    font, s)) * s * spacing], does not increase when the width grows and
    does not decrease when the size grows. *)
Theorem wrap_height_monotone
    (stringWidth : str -> str -> Q -> Q) (text font_name : str) (line_spacing : Q) :
  monotone_metric stringWidth ->
  only_spaces_and_newlines text ->
  0 < line_spacing ->
  let height (w s : Q) :=
    calculate_text_height (wrap_text stringWidth w font_name s text) s line_spacing in
  (forall w w' s, 0 < s -> w <= w' -> height w' s <= height w s)
  /\ (forall w s s', 0 < s -> s <= s' -> height w s <= height w s').
Proof.
  intros Hmono Htext Hsp height. unfold height. split.
  - intros w w' s Hs Hw. rewrite !calculate_text_height_eq.
    assert (Hlen : len (wrap_text stringWidth w' font_name s text)
                   <= len (wrap_text stringWidth w font_name s text)).
    { apply len_le. apply wrap_count_monotone; try assumption; lra. }
    assert (0 < s * line_spacing) by nra.
    rewrite <- !Qmult_assoc. apply Qmult_le_compat_r; [exact Hlen | lra].
  - intros w s s' Hs Hle. rewrite !calculate_text_height_eq.
    assert (Hlen : len (wrap_text stringWidth w font_name s text)
                   <= len (wrap_text stringWidth w font_name s' text)).
    { apply len_le. apply wrap_count_monotone; try assumption; lra. }
    pose proof (len_nonneg (wrap_text stringWidth w font_name s text)) as H0.
    set (n := len (wrap_text stringWidth w font_name s text)) in *.
    set (n' := len (wrap_text stringWidth w font_name s' text)) in *.
    assert (H1 : n * s <= n' * s') by nra.
    apply (Qmult_le_compat_r _ _ line_spacing) in H1; [exact H1 | lra].
Qed.

Lemma wrap_height_monotone_witness :
  let text := py "Alpha Beta" ++ [NEWLINE] ++ py "Gamma Delta" in
  let font := py "Courier" in
  let height (w s : Q) :=
    calculate_text_height (wrap_text courier w font s text) s (12 # 10) in
  (monotone_metric courier /\ only_spaces_and_newlines text /\ 0 < 12 # 10)
  /\ (forall w w' s, 0 < s -> w <= w' -> height w' s <= height w s)
  /\ (forall w s s', 0 < s -> s <= s' -> height w s <= height w s').
Proof.
  intros text font height.
  assert (H1 : only_spaces_and_newlines text)
    by (apply only_spaces_and_newlinesb_true; vm_compute; reflexivity).
  assert (H2 : 0 < 12 # 10) by reflexivity.
  split; [repeat split; try assumption; apply courier_monotone|].
  exact (wrap_height_monotone courier text font (12 # 10) courier_monotone H1 H2).
Defined.

(** C6 fails on a text with tabs, whatever the metric: [wrap_text] strips
    the candidate line, so the tabs that end a word count when the word
    starts a line and not when it follows another word. With the fixed-pitch
    metric at size 10, the text below takes two lines in a box six
    characters wide and three lines in a box seven characters wide. *)
Lemma wrap_height_counterexample :
  let text := py "pppp qq a" ++ repeat 9%N 5 ++ py " y" in
  let font := py "Courier" in
  let height (w s : Q) :=
    calculate_text_height (wrap_text courier w font s text) s 1 in
  monotone_metric courier
  /\ 36 <= 42
  /\ wrap_text courier 36 font 10 text = [py "pppp"; py "qq a y"]
  /\ wrap_text courier 42 font 10 text
     = [py "pppp qq"; py "a" ++ repeat 9%N 5; py "y"]
  /\ ~ height 42 10 <= height 36 10.
Proof.
  intros text font height.
  split; [apply courier_monotone|].
  split; [unfold Qle; simpl; lia|].
  split; [vm_compute; reflexivity|].
  split; [vm_compute; reflexivity|].
  intros H. apply Qle_bool_iff in H. vm_compute in H. discriminate.
Qed.

(** ** The file-name sanitizer *)

Lemma replace_char_map (c u : char) (s : str) :
  replace [c] [u] s = map (fun x => if (c =? x)%N then u else x) s.
Proof.
  induction s as [|x s IH]; [reflexivity|].
  rewrite replace_char_cons, IH. simpl. destruct (c =? x)%N; reflexivity.
Qed.

(** Once a character of the list is replaced by the underscore it does
    not come back. *)
Lemma scrub_removes (cs : str) : forall (done s : str),
  ~ In UNDERSCORE (done ++ cs) ->
  (forall x, In x s -> ~ In x done) ->
  forall x,
    In x (fold_left (fun result char => replace [char] [UNDERSCORE] result) cs s) ->
    ~ In x (done ++ cs).
Proof.
  induction cs as [|c cs IH]; intros done s Hu Hs x Hx.
  - rewrite app_nil_r. apply Hs. exact Hx.
  - cbn [fold_left] in Hx.
    replace (done ++ c :: cs) with ((done ++ [c]) ++ cs) in *
      by (rewrite <- app_assoc; reflexivity).
    apply (IH (done ++ [c]) (replace [c] [UNDERSCORE] s)); [exact Hu| |exact Hx].
    intros y Hy Hin. rewrite replace_char_map in Hy. apply in_map_iff in Hy.
    destruct Hy as (z & Ez & Hz).
    destruct (N.eqb_spec c z) as [->|Hne].
    + subst y. apply Hu. apply in_or_app. left. exact Hin.
    + subst y. apply in_app_or in Hin. destruct Hin as [Hin|[->|[]]].
      * exact (Hs z Hz Hin).
      * congruence.
Qed.

Lemma replace_pair_step (c a b : char) (t : str) :
  replace [c; c] [c] (a :: b :: t)
  = if ((c =? a) && (c =? b))%N then c :: replace [c; c] [c] t
    else a :: replace [c; c] [c] (b :: t).
Proof.
  unfold replace. cbn [replace_from startswith List.length Nat.sub app].
  rewrite andb_true_r. destruct ((c =? a) && (c =? b))%N; reflexivity.
Qed.

Lemma replace_pair_one (c a : char) : replace [c; c] [c] [a] = [a].
Proof.
  unfold replace. cbn [replace_from startswith]. rewrite andb_false_r. reflexivity.
Qed.

(** Induction over a string two characters at a time, as [replace] goes. *)
Lemma str_pair_ind (c : char) (P : str -> Prop) :
  P [] -> (forall a, P [a]) ->
  (forall t, P t -> P (c :: c :: t)) ->
  (forall a b t, ((c =? a) && (c =? b))%N = false -> P (b :: t) -> P (a :: b :: t)) ->
  forall s, P s.
Proof.
  intros H0 H1 Hcc Hstep s.
  assert (H : forall n s, (List.length s <= n)%nat -> P s).
  { induction n as [|n IH]; intros s0 Hlen.
    - destruct s0; [exact H0 | simpl in Hlen; lia].
    - destruct s0 as [|a [|b t]]; [exact H0 | apply H1|].
      destruct ((c =? a) && (c =? b))%N eqn:E.
      + apply andb_true_iff in E. destruct E as [Ea Eb].
        apply N.eqb_eq in Ea, Eb. subst a b.
        apply Hcc, IH. simpl in Hlen. lia.
      + apply Hstep; [exact E|]. apply IH. simpl in Hlen |- *. lia. }
  apply (H (List.length s)). lia.
Qed.

Lemma replace_pair_cc (c : char) (t : str) :
  replace [c; c] [c] (c :: c :: t) = c :: replace [c; c] [c] t.
Proof. rewrite replace_pair_step, N.eqb_refl. reflexivity. Qed.

Lemma replace_pair_other (c a b : char) (t : str) :
  ((c =? a) && (c =? b))%N = false ->
  replace [c; c] [c] (a :: b :: t) = a :: replace [c; c] [c] (b :: t).
Proof. intros E. rewrite replace_pair_step, E. reflexivity. Qed.

Lemma contains_pair (c : char) (s : str) : contains [c; c] s = has_pair c s.
Proof.
  induction s as [|a s IH]; [reflexivity|].
  cbn [contains]. rewrite IH. destruct s as [|b t].
  - simpl. rewrite andb_false_r. reflexivity.
  - cbn [startswith has_pair]. rewrite andb_true_r, (N.eqb_sym c a), (N.eqb_sym c b).
    reflexivity.
Qed.

Lemma replace_pair_In (c : char) (s : str) :
  forall x, In x (replace [c; c] [c] s) -> In x s.
Proof.
  induction s as [| a | t IH | a b t E IH] using (str_pair_ind c); intros x Hx.
  - exact Hx.
  - rewrite replace_pair_one in Hx. exact Hx.
  - rewrite replace_pair_cc in Hx. destruct Hx as [<-|Hx]; [left; reflexivity|].
    right. right. apply IH. exact Hx.
  - rewrite (replace_pair_other _ _ _ _ E) in Hx.
    destruct Hx as [<-|Hx]; [left; reflexivity | right; apply IH; exact Hx].
Qed.

Lemma has_pair_cons (d a : char) (s : str) :
  has_pair d (a :: s) = ((a =? d) && (hd 0 s =? d) && truthy s)%N || has_pair d s.
Proof.
  destruct s as [|b t]; cbn [has_pair hd truthy].
  - rewrite andb_false_r. reflexivity.
  - rewrite andb_true_r. reflexivity.
Qed.

Lemma replace_pair_length (c : char) (s : str) :
  (List.length (replace [c; c] [c] s) <= List.length s)%nat
  /\ (has_pair c s = true ->
      (List.length (replace [c; c] [c] s) < List.length s)%nat).
Proof.
  induction s as [| a | t IH | a b t E IH] using (str_pair_ind c).
  - split; [reflexivity | discriminate].
  - rewrite replace_pair_one. split; [reflexivity | discriminate].
  - destruct IH as [IH1 _]. rewrite replace_pair_cc. cbn [List.length].
    split; [lia | intros _; lia].
  - destruct IH as [IH1 IH2]. rewrite (replace_pair_other _ _ _ _ E).
    cbn [List.length] in *. unfold str, char in *.
    split; [lia|]. intros H. rewrite has_pair_cons in H.
    cbn [hd truthy] in H.
    rewrite andb_true_r, (N.eqb_sym a c), (N.eqb_sym b c), E in H. cbn [orb] in H.
    apply IH2 in H. lia.
Qed.

Lemma replace_pair_hd (c b : char) (t : str) (d : char) :
  hd d (replace [c; c] [c] (b :: t)) = b.
Proof.
  destruct t as [|b' t']; [rewrite replace_pair_one; reflexivity|].
  rewrite replace_pair_step.
  destruct ((c =? b) && (c =? b'))%N eqn:E; [|reflexivity].
  apply andb_true_iff in E. destruct E as [E _]. apply N.eqb_eq in E. exact E.
Qed.

(** Collapsing the pairs of [c] makes no pair of another character. *)
Lemma replace_pair_keeps (c d : char) (s : str) :
  d <> c -> has_pair d s = false -> has_pair d (replace [c; c] [c] s) = false.
Proof.
  intros Hdc.
  induction s as [| a | t IH | a b t E IH] using (str_pair_ind c); intros H.
  - reflexivity.
  - rewrite replace_pair_one. reflexivity.
  - rewrite replace_pair_cc, has_pair_cons.
    destruct (N.eqb_spec c d) as [->|_]; [congruence|]. cbn [andb orb].
    apply IH. rewrite !has_pair_cons in H.
    apply orb_false_iff in H. destruct H as [_ H].
    apply orb_false_iff in H. destruct H as [_ H]. exact H.
  - rewrite (replace_pair_other _ _ _ _ E), has_pair_cons.
    rewrite has_pair_cons in H. apply orb_false_iff in H. destruct H as [H1 H2].
    apply orb_false_iff. split; [|exact (IH H2)].
    pose proof (replace_pair_hd c b t 0%N) as Hhd. unfold str, char in *.
    cbn [hd truthy] in H1. rewrite andb_true_r in H1.
    destruct (replace [c; c] [c] (b :: t)) as [|b' t']; [apply andb_false_r|].
    cbn [hd] in Hhd. subst b'. cbn [hd truthy]. rewrite andb_true_r. exact H1.
Qed.

Lemma collapse_loop_In (c : char) (fuel : nat) : forall (s : str) (x : char),
  In x (collapse_loop fuel [c; c] [c] s) -> In x s.
Proof.
  induction fuel as [|fuel IH]; intros s x H; [exact H|].
  cbn [collapse_loop] in H. destruct (contains [c; c] s); [|exact H].
  apply replace_pair_In with (c := c). apply IH. exact H.
Qed.

(** With [len(result)] turns the loop runs until no pair is left. *)
Lemma collapse_loop_done (c : char) (fuel : nat) : forall (s : str),
  (List.length s <= fuel)%nat -> has_pair c (collapse_loop fuel [c; c] [c] s) = false.
Proof.
  induction fuel as [|fuel IH]; intros s Hlen.
  - destruct s; [reflexivity | simpl in Hlen; lia].
  - cbn [collapse_loop]. rewrite contains_pair.
    destruct (has_pair c s) eqn:E; [|exact E].
    apply IH. destruct (replace_pair_length c s) as [_ H]. specialize (H E). lia.
Qed.

Lemma collapse_loop_keeps (c d : char) (fuel : nat) : forall (s : str),
  d <> c -> has_pair d s = false ->
  has_pair d (collapse_loop fuel [c; c] [c] s) = false.
Proof.
  induction fuel as [|fuel IH]; intros s Hdc H; [exact H|].
  cbn [collapse_loop]. destruct (contains [c; c] s); [|exact H].
  apply IH; [exact Hdc|]. apply replace_pair_keeps; assumption.
Qed.

Lemma has_pair_tail (d a : char) (s : str) :
  has_pair d (a :: s) = false -> has_pair d s = false.
Proof.
  rewrite has_pair_cons. intros H. apply orb_false_iff in H. exact (proj2 H).
Qed.

Lemma has_pair_suffix (d : char) (a b : str) :
  has_pair d (a ++ b) = false -> has_pair d b = false.
Proof.
  induction a as [|x a IH]; intros H; [exact H|].
  apply IH. apply has_pair_tail with (a := x). exact H.
Qed.

Lemma has_pair_prefix (d : char) (a b : str) :
  has_pair d (a ++ b) = false -> has_pair d a = false.
Proof.
  induction a as [|x a IH]; intros H; [reflexivity|].
  rewrite <- app_comm_cons, has_pair_cons in H.
  apply orb_false_iff in H. destruct H as [H1 H2].
  rewrite has_pair_cons, (IH H2), orb_false_r.
  destruct a as [|y a']; [apply andb_false_r | exact H1].
Qed.

Lemma lstrip_by_suffix (p : char -> bool) (s : str) :
  exists d, s = d ++ lstrip_by p s.
Proof.
  induction s as [|c t [d IH]]; [exists []; reflexivity|].
  simpl. destruct (p c).
  - exists (c :: d). simpl. f_equal. exact IH.
  - exists []. reflexivity.
Qed.

Lemma lstrip_by_hd (p : char -> bool) (s : str) (c : char) (t : str) :
  lstrip_by p s = c :: t -> p c = false.
Proof.
  induction s as [|x s IH]; [discriminate|].
  simpl. destruct (p x) eqn:E; [exact IH|].
  intros H. injection H as <- _. exact E.
Qed.

Lemma rstrip_by_prefix (p : char -> bool) (s : str) :
  exists j, s = rstrip_by p s ++ j.
Proof.
  unfold rstrip_by. destruct (lstrip_by_suffix p (rev s)) as [d Hd].
  exists (rev d). rewrite <- rev_app_distr, <- Hd, rev_involutive. reflexivity.
Qed.

Lemma lstrip_by_keeps_last (p : char -> bool) (c : char) (l : str) :
  p c = false -> exists m, lstrip_by p (l ++ [c]) = m ++ [c].
Proof.
  intros Hc. induction l as [|x l [m IH]].
  - exists []. simpl. rewrite Hc. reflexivity.
  - simpl. destruct (p x).
    + exists m. exact IH.
    + exists (x :: l). reflexivity.
Qed.

Lemma rstrip_by_keeps_hd (p : char -> bool) (c : char) (t : str) :
  p c = false -> exists t', rstrip_by p (c :: t) = c :: t'.
Proof.
  intros Hc. unfold rstrip_by. cbn [rev].
  destruct (lstrip_by_keeps_last p c (rev t) Hc) as [m Hm].
  exists (rev m). rewrite Hm, rev_app_distr. reflexivity.
Qed.

(** The stripped string is a piece of the string, and does not start with
    a stripped character. *)
Lemma strip_by_piece (p : char -> bool) (s : str) :
  exists d j, s = d ++ strip_by p s ++ j.
Proof.
  unfold strip_by. destruct (lstrip_by_suffix p s) as [d Hd].
  destruct (rstrip_by_prefix p (lstrip_by p s)) as [j Hj].
  exists d, j. rewrite <- Hj. exact Hd.
Qed.

Lemma strip_by_hd (p : char -> bool) (s : str) (c : char) (t : str) :
  strip_by p s = c :: t -> p c = false.
Proof.
  unfold strip_by. destruct (lstrip_by p s) as [|x l] eqn:E.
  - discriminate.
  - pose proof (lstrip_by_hd p s x l E) as Hx.
    destruct (rstrip_by_keeps_hd p x l Hx) as [t' Ht]. rewrite Ht.
    intros H. injection H as <- _. exact Hx.
Qed.

(** What [sanitize_filename] guarantees: no unsafe character, no two
    spaces and no two underscores in a row, no space and no dot at the
    start, and the length. *)
Lemma sanitize_filename_safe (name : str) (max_length : nat) :
  let result := sanitize_filename name max_length in
  (forall x, In x result -> ~ In x unsafe_chars)
  /\ contains [SPACE; SPACE] result = false
  /\ contains [UNDERSCORE; UNDERSCORE] result = false
  /\ (forall c t, result = c :: t -> c <> SPACE /\ c <> DOT)
  /\ (List.length result <= max_length)%nat.
Proof.
  unfold sanitize_filename.
  set (r1 := fold_left _ unsafe_chars name).
  set (r2 := collapse_loop (List.length r1) [SPACE; SPACE] [SPACE] r1).
  set (r3 := collapse_loop (List.length r2) [UNDERSCORE; UNDERSCORE] [UNDERSCORE] r2).
  set (r4 := strip_chars [SPACE; DOT] r3).
  assert (H1 : forall x, In x r1 -> ~ In x unsafe_chars).
  { intros x Hx. apply (scrub_removes unsafe_chars [] name); [| |exact Hx].
    - vm_compute. intuition discriminate.
    - intros y _ []. }
  assert (H3 : forall x, In x r3 -> ~ In x unsafe_chars).
  { intros x Hx. apply H1.
    apply collapse_loop_In in Hx. apply collapse_loop_In in Hx. exact Hx. }
  assert (S3 : has_pair SPACE r3 = false).
  { apply collapse_loop_keeps; [discriminate|].
    apply collapse_loop_done. apply le_n. }
  assert (U3 : has_pair UNDERSCORE r3 = false).
  { apply collapse_loop_done. apply le_n. }
  destruct (strip_by_piece (fun c => existsb (N.eqb c) [SPACE; DOT]) r3) as (d & j & Hpiece).
  fold (strip_chars [SPACE; DOT] r3) in Hpiece. fold r4 in Hpiece.
  assert (H4 : forall x, In x r4 -> ~ In x unsafe_chars).
  { intros x Hx. apply H3. rewrite Hpiece.
    apply in_or_app. right. apply in_or_app. left. exact Hx. }
  assert (S4 : has_pair SPACE r4 = false).
  { rewrite Hpiece in S3. apply has_pair_suffix in S3.
    apply has_pair_prefix in S3. exact S3. }
  assert (U4 : has_pair UNDERSCORE r4 = false).
  { rewrite Hpiece in U3. apply has_pair_suffix in U3.
    apply has_pair_prefix in U3. exact U3. }
  assert (Hd4 : forall c t, r4 = c :: t -> c <> SPACE /\ c <> DOT).
  { intros c t E. apply strip_by_hd in E. simpl in E.
    apply orb_false_iff in E. destruct E as [E1 E2].
    apply orb_false_iff in E2. destruct E2 as [E2 _].
    apply N.eqb_neq in E1, E2. split; assumption. }
  destruct (max_length <? List.length r4)%nat eqn:Elen.
  - pose proof (firstn_skipn max_length r4) as Hcut.
    repeat split.
    + intros x Hx. apply H4. rewrite <- Hcut. apply in_or_app. left. exact Hx.
    + rewrite contains_pair. rewrite <- Hcut in S4.
      apply has_pair_prefix in S4. exact S4.
    + rewrite contains_pair. rewrite <- Hcut in U4.
      apply has_pair_prefix in U4. exact U4.
    + destruct r4 as [|c0 t0]; [destruct max_length; discriminate|].
      destruct max_length; [discriminate|]. cbn [firstn] in H.
      injection H as <- _. exact (proj1 (Hd4 c0 t0 eq_refl)).
    + destruct r4 as [|c0 t0]; [destruct max_length; discriminate|].
      destruct max_length; [discriminate|]. cbn [firstn] in H.
      injection H as <- _. exact (proj2 (Hd4 c0 t0 eq_refl)).
    + apply firstn_le_length.
  - apply Nat.ltb_ge in Elen. repeat split.
    + exact H4.
    + rewrite contains_pair. exact S4.
    + rewrite contains_pair. exact U4.
    + exact (proj1 (Hd4 c t H)).
    + exact (proj2 (Hd4 c t H)).
    + exact Elen.
Qed.

(** C10 at a name that is cut. The file name of [format_output_filename]
    has no unsafe character, no two spaces and no two underscores in a row,
    no space and no dot at its start, and at most 200 characters. It can
    end with a space: [sanitize_filename] strips the spaces and dots at
    both ends before it truncates, and the name made of 199 letters, a
    space and a letter is cut after the space. *)
Theorem sanitize_truncation_leaves_space :
  (forall pattern project_id project_name,
     let filename := format_output_filename pattern project_id project_name in
     (forall x, In x filename -> ~ In x unsafe_chars)
     /\ contains [SPACE; SPACE] filename = false
     /\ contains [UNDERSCORE; UNDERSCORE] filename = false
     /\ (forall c t, filename = c :: t -> c <> SPACE /\ c <> DOT)
     /\ (List.length filename <= 200)%nat)
  /\ (let project_name := repeat 97%N 199 ++ py " b" in
      let filename :=
        format_output_filename (py "{project_name}") (py "7") project_name in
      filename = repeat 97%N 199 ++ [SPACE]
      /\ last filename 0%N = SPACE).
Proof.
  split.
  - intros pattern project_id project_name. apply sanitize_filename_safe.
  - vm_compute. split; reflexivity.
Qed.

(** * More properties of the code *)

(** ** _break_long_word *)

Section BreakFacts.

Variable stringWidth : str -> str -> Q -> Q.
Variable max_width : Q.
Variable font_name : str.
Variable font_size : Q.

Let fitsb (s : str) := Qle_bool (stringWidth s font_name font_size) max_width.
Let bstep := break_step stringWidth max_width font_name font_size.

Lemma concat_flush (st : list str * str) :
  List.concat (flush st) = List.concat (fst st) ++ snd st.
Proof.
  destruct st as [res cur]. unfold flush. cbn [fst snd].
  destruct cur as [|c cur]; cbn [truthy].
  - rewrite app_nil_r. reflexivity.
  - rewrite concat_app. simpl. rewrite app_nil_r. reflexivity.
Qed.

Lemma break_fold_concat (word : str) : forall (st : list str * str),
  List.concat (flush (fold_left bstep word st)) = List.concat (flush st) ++ word.
Proof.
  induction word as [|ch word IH]; intros st.
  - rewrite app_nil_r. reflexivity.
  - cbn [fold_left]. rewrite IH. destruct st as [res cur].
    unfold bstep, break_step.
    destruct (Qle_bool _ max_width).
    + rewrite !concat_flush. cbn [fst snd]. rewrite <- !app_assoc. reflexivity.
    + change (if truthy cur then res ++ [cur] else res) with (flush (res, cur)).
      rewrite (concat_flush (flush (res, cur), [ch])). cbn [fst snd].
      rewrite <- !app_assoc. reflexivity.
Qed.

Let piece_ok := piece_ok stringWidth max_width font_name font_size.

Lemma break_fold_pieces (word : str) : forall (st : list str * str),
  Forall piece_ok (fst st) -> (snd st = [] \/ piece_ok (snd st)) ->
  Forall piece_ok (flush (fold_left bstep word st)).
Proof.
  induction word as [|ch word IH]; intros [res cur] Hres Hcur; cbn [fst snd] in *.
  - cbn [fold_left]. unfold flush. destruct cur as [|c cur]; cbn [truthy].
    + exact Hres.
    + apply Forall_app. split; [exact Hres|]. constructor; [|constructor].
      destruct Hcur as [H|H]; [discriminate | exact H].
  - cbn [fold_left]. apply IH.
    + unfold bstep, break_step. destruct (Qle_bool _ max_width); cbn [fst].
      * exact Hres.
      * destruct cur as [|c cur]; cbn [truthy]; [exact Hres|].
        apply Forall_app. split; [exact Hres|]. constructor; [|constructor].
        destruct Hcur as [H|H]; [discriminate | exact H].
    + right. unfold bstep, break_step.
      destruct (Qle_bool _ max_width) eqn:E; cbn [snd].
      * split; [destruct cur; discriminate | left; exact E].
      * split; [discriminate | right; reflexivity].
Qed.

Lemma break_concat (word : str) :
  List.concat (_break_long_word stringWidth max_width font_name font_size word)
  = word.
Proof.
  unfold _break_long_word. fold bstep. rewrite break_fold_concat. reflexivity.
Qed.

Lemma break_pieces_ok (word : str) :
  Forall piece_ok
    (_break_long_word stringWidth max_width font_name font_size word).
Proof.
  unfold _break_long_word. fold bstep.
  apply break_fold_pieces; [constructor | left; reflexivity].
Qed.

End BreakFacts.

(** X1. [_break_long_word] loses nothing and invents nothing: the pieces,
    put end to end, are the word. *)
Theorem break_long_word_concat
    (stringWidth : str -> str -> Q -> Q) (max_width : Q) (font_name : str)
    (font_size : Q) (word : str) :
  List.concat (_break_long_word stringWidth max_width font_name font_size word)
  = word.
Proof. apply break_concat. Qed.

(** X2. No piece of [_break_long_word] is empty, and a piece is wider than
    [max_width] only when it is a single character. *)
Theorem break_long_word_pieces
    (stringWidth : str -> str -> Q -> Q) (max_width : Q) (font_name : str)
    (font_size : Q) (word : str) :
  Forall (fun piece =>
            piece <> []
            /\ (stringWidth piece font_name font_size <= max_width
                \/ List.length piece = 1%nat))
         (_break_long_word stringWidth max_width font_name font_size word).
Proof.
  pose proof (break_pieces_ok stringWidth max_width font_name font_size word) as H.
  apply Forall_impl with (2 := H).
  intros piece [Hne [Hfit|Hone]]; split; try assumption.
  - left. apply Qle_bool_iff. exact Hfit.
  - right. exact Hone.
Qed.

(** ** What wrap_text keeps *)

Lemma letters_app (a b : str) : letters (a ++ b) = letters a ++ letters b.
Proof. apply filter_app. Qed.

Lemma letters_lstrip (s : str) : letters (lstrip_by isspace s) = letters s.
Proof.
  induction s as [|c t IH]; [reflexivity|].
  cbn [lstrip_by]. destruct (isspace c) eqn:E; [|reflexivity].
  rewrite IH. unfold letters. cbn [filter]. rewrite E. reflexivity.
Qed.

Lemma letters_rev (s : str) : letters (rev s) = rev (letters s).
Proof.
  induction s as [|c t IH]; [reflexivity|].
  cbn [rev]. rewrite letters_app, IH. unfold letters. simpl.
  destruct (negb (isspace c)); simpl; [reflexivity | rewrite app_nil_r; reflexivity].
Qed.

Lemma letters_strip (s : str) : letters (strip s) = letters s.
Proof.
  unfold strip, strip_by, rstrip_by.
  rewrite letters_rev, letters_lstrip, letters_rev, rev_involutive.
  apply letters_lstrip.
Qed.

Lemma letters_split_space (s : str) :
  letters (List.concat (split_space s)) = letters s.
Proof.
  induction s as [|c t IH]; [reflexivity|].
  simpl. destruct (N.eqb_spec c SPACE) as [->|Hne].
  - simpl. rewrite IH. reflexivity.
  - pose proof (split_space_nonempty t) as Hnil.
    destruct (split_space t) as [|w0 ws]; [congruence|].
    simpl in *. unfold letters in *. simpl. rewrite IH. reflexivity.
Qed.

Lemma letters_words_of (text : str) :
  letters (List.concat (words_of text)) = letters text.
Proof.
  unfold words_of. rewrite letters_split_space.
  induction text as [|c t IH]; [reflexivity|].
  rewrite replace_char_cons. destruct (N.eqb_spec NEWLINE c) as [<-|Hne].
  - rewrite letters_app, IH. reflexivity.
  - unfold letters in *. simpl. rewrite IH. reflexivity.
Qed.

Section WrapKeeps.

Variable stringWidth : str -> str -> Q -> Q.
Variable max_width : Q.
Variable font_name : str.
Variable font_size : Q.

Let step := wrap_step stringWidth max_width font_name font_size.
Let line_ok (l : str) : Prop :=
  tidy l /\ piece_ok stringWidth max_width font_name font_size l.

Lemma letters_test_line (c x : str) :
  letters (test_line_of c x) = letters c ++ letters x.
Proof.
  unfold test_line_of. destruct c as [|a c']; [reflexivity|]. cbn [truthy].
  rewrite letters_strip, letters_app, letters_app. reflexivity.
Qed.

Lemma wrap_step_letters (st : list str * str) (x : str) :
  letters (List.concat (flush (step st x)))
  = letters (List.concat (flush st)) ++ letters x.
Proof.
  destruct st as [lines c].
  destruct (list_eq_dec N.eq_dec x [NEWLINE]) as [->|Hnl].
  { unfold step. rewrite wrap_step_newline. unfold flush, close_line. cbn [truthy].
    destruct (truthy c); rewrite ?concat_app, ?letters_app; simpl;
      rewrite ?app_nil_r, ?letters_strip, ?app_nil_r; reflexivity. }
  destruct x as [|a x'].
  { unfold step. rewrite wrap_step_empty, app_nil_r. reflexivity. }
  unfold step. rewrite wrap_step_word by (discriminate || exact Hnl).
  change (if truthy c then lines ++ [c] else lines) with (flush (lines, c)).
  destruct (Qle_bool _ max_width).
  - rewrite !concat_flush. cbn [fst snd].
    rewrite !letters_app, letters_test_line, app_assoc. reflexivity.
  - destruct (Qle_bool _ max_width).
    + rewrite (concat_flush (flush _, _ :: _)). cbn [fst snd].
      rewrite letters_app. reflexivity.
    + rewrite (concat_flush (_ ++ _, [])). cbn [fst snd].
      rewrite app_nil_r, concat_app, break_concat, letters_app.
      reflexivity.
Qed.

Lemma wrap_fold_letters (words : list str) : forall (st : list str * str),
  letters (List.concat (flush (fold_left step words st)))
  = letters (List.concat (flush st)) ++ letters (List.concat words).
Proof.
  induction words as [|x words IH]; intros st.
  - simpl. rewrite app_nil_r. reflexivity.
  - cbn [fold_left]. rewrite IH, wrap_step_letters. simpl.
    rewrite letters_app, app_assoc. reflexivity.
Qed.

Lemma piece_plain (word piece : str) :
  plain word ->
  In piece (_break_long_word stringWidth max_width font_name font_size word) ->
  piece <> [] -> plain piece.
Proof.
  intros [_ Hall] Hin Hne. split; [exact Hne|].
  rewrite Forall_forall in *. intros ch Hch. apply Hall.
  rewrite <- (break_concat stringWidth max_width font_name font_size word).
  apply in_concat. exists piece. split; assumption.
Qed.

Lemma wrap_step_lines_ok (st : list str * str) (x : str) :
  token x ->
  Forall line_ok (fst st) -> (snd st = [] \/ line_ok (snd st)) ->
  Forall line_ok (fst (step st x))
  /\ (snd (step st x) = [] \/ line_ok (snd (step st x))).
Proof.
  intros Hx Hlines Hcur. destruct st as [lines c]. cbn [fst snd] in *.
  assert (Hflush : Forall line_ok (flush (lines, c))).
  { unfold flush. destruct c as [|a c']; cbn [truthy]; [exact Hlines|].
    apply Forall_app. split; [exact Hlines|]. constructor; [|constructor].
    destruct Hcur as [H|H]; [discriminate | exact H]. }
  destruct Hx as [->|[->|Hx]].
  - unfold step. rewrite wrap_step_empty. split; [exact Hlines | exact Hcur].
  - unfold step. rewrite wrap_step_newline. cbn [fst snd].
    split; [|left; reflexivity].
    unfold close_line. destruct c as [|a c']; cbn [truthy]; [exact Hlines|].
    destruct Hcur as [H|H]; [discriminate|].
    rewrite (strip_tidy _ (proj1 H)).
    apply Forall_app. split; [exact Hlines|]. constructor; [exact H | constructor].
  - assert (Hc : c = [] \/ tidy c).
    { destruct Hcur as [H|[H _]]; [left | right]; exact H. }
    destruct (step_outcome stringWidth font_name max_width font_size lines c x Hx Hc)
      as [Ht O].
    cbv beta zeta in O, Ht. fold step in O, Ht.
    destruct O as [(Ft & E & _)|[(_ & Fx & E & _)|(_ & _ & E & _)]].
    + rewrite E in *. cbn [fst snd] in *. split; [exact Hlines|]. right.
      assert (Hne : (if truthy c then c ++ [SPACE] ++ x else x) <> []).
      { destruct c; [exact (proj1 Hx) | discriminate]. }
      destruct Ht as [Ht|Ht]; [congruence|].
      split; [exact Ht|]. split; [exact Hne | left; exact Ft].
    + rewrite E. cbn [fst snd]. split; [exact Hflush|]. right.
      split; [apply plain_tidy; exact Hx|].
      split; [exact (proj1 Hx) | left; exact Fx].
    + rewrite E. cbn [fst snd]. split; [|left; reflexivity].
      apply Forall_app. split; [exact Hflush|].
      pose proof (break_pieces_ok stringWidth max_width font_name font_size x)
        as Hp.
      rewrite Forall_forall in *. intros piece Hin.
      pose proof (Hp piece Hin) as Hpiece. split; [|exact Hpiece].
      apply plain_tidy. apply (piece_plain x); [assumption.. | exact (proj1 Hpiece)].
Qed.

Lemma wrap_fold_lines_ok (words : list str) : forall (st : list str * str),
  Forall token words ->
  Forall line_ok (fst st) -> (snd st = [] \/ line_ok (snd st)) ->
  Forall line_ok (flush (fold_left step words st)).
Proof.
  induction words as [|x words IH]; intros st Hall Hlines Hcur.
  - destruct st as [lines c]. cbn [fold_left fst snd] in *. unfold flush.
    destruct c as [|a c']; cbn [truthy]; [exact Hlines|].
    apply Forall_app. split; [exact Hlines|]. constructor; [|constructor].
    destruct Hcur as [H|H]; [discriminate | exact H].
  - inversion Hall as [|? ? Hx Hrest]; subst. cbn [fold_left].
    destruct (wrap_step_lines_ok st x Hx Hlines Hcur) as [H1 H2].
    apply IH; assumption.
Qed.

End WrapKeeps.

Lemma wrap_letters
    (stringWidth : str -> str -> Q -> Q) (max_width : Q) (font_name : str)
    (font_size : Q) (text : str) :
  letters (List.concat (wrap_text stringWidth max_width font_name font_size text))
  = letters text.
Proof.
  rewrite wrap_text_loop. unfold wrap_loop.
  rewrite wrap_fold_letters. simpl. apply letters_words_of.
Qed.

Lemma wrap_lines_ok
    (stringWidth : str -> str -> Q -> Q) (max_width : Q) (font_name : str)
    (font_size : Q) (text : str) :
  only_spaces_and_newlines text ->
  Forall (fun line =>
            tidy line /\ piece_ok stringWidth max_width font_name font_size line)
         (wrap_text stringWidth max_width font_name font_size text).
Proof.
  intros Htext. rewrite wrap_text_loop. unfold wrap_loop.
  exact (wrap_fold_lines_ok stringWidth max_width font_name font_size
           (words_of text) ([], []) (proj1 (words_of_tokens text Htext))
           (Forall_nil _) (or_introl eq_refl)).
Qed.

(** X3. [wrap_text] keeps every character that is not white space, in
    order, and adds none: the lines put end to end and the text have the
    same characters once the white space is removed. *)
Theorem wrap_text_letters
    (stringWidth : str -> str -> Q -> Q) (max_width : Q) (font_name : str)
    (font_size : Q) (text : str) :
  letters (List.concat (wrap_text stringWidth max_width font_name font_size text))
  = letters text.
Proof. apply wrap_letters. Qed.

(** X4. When the white space of the text is spaces and newlines only,
    every line of [wrap_text] is non-empty, has no white space at either
    end, and is at most [max_width] wide unless it is a single character. *)
Theorem wrap_text_lines_fit
    (stringWidth : str -> str -> Q -> Q) (max_width : Q) (font_name : str)
    (font_size : Q) (text : str) :
  only_spaces_and_newlines text ->
  Forall (fun line =>
            tidy line
            /\ (stringWidth line font_name font_size <= max_width
                \/ List.length line = 1%nat))
         (wrap_text stringWidth max_width font_name font_size text).
Proof.
  intros Htext.
  pose proof (wrap_lines_ok stringWidth max_width font_name font_size text Htext)
    as H.
  apply Forall_impl with (2 := H).
  intros line [Htidy [_ [Hfit|Hone]]]; split; try assumption.
  - left. apply Qle_bool_iff. exact Hfit.
  - right. exact Hone.
Qed.

(** X5. When the white space of the text is spaces and newlines only,
    [wrap_text] returns no line exactly when the text has no other
    character. *)
Theorem wrap_text_empty_iff
    (stringWidth : str -> str -> Q -> Q) (max_width : Q) (font_name : str)
    (font_size : Q) (text : str) :
  only_spaces_and_newlines text ->
  (wrap_text stringWidth max_width font_name font_size text = []
   <-> letters text = []).
Proof.
  intros Htext. split; intros H.
  - rewrite <- (wrap_letters stringWidth max_width font_name font_size text), H.
    reflexivity.
  - pose proof (wrap_lines_ok stringWidth max_width font_name font_size
                  text Htext) as Hok.
    pose proof (wrap_letters stringWidth max_width font_name font_size text) as Hl.
    destruct (wrap_text stringWidth max_width font_name font_size text)
      as [|line rest]; [reflexivity|].
    exfalso. inversion Hok as [|? ? [(Hne & Hhd & _) _] _]; subst.
    destruct line as [|a line']; [congruence|].
    rewrite H in Hl. simpl in Hl, Hhd. unfold letters in Hl. simpl in Hl.
    rewrite Hhd in Hl. discriminate.
Qed.

(** ** The result of fit_text_to_box *)

Lemma last_as_nth {A : Type} (l : list A) (d : A) :
  last l d = nth (List.length l - 1) l d.
Proof.
  induction l as [|a l IH]; [reflexivity|].
  destruct l as [|b l']; [reflexivity|].
  change (last (a :: b :: l') d) with (last (b :: l') d). rewrite IH.
  simpl. rewrite Nat.sub_0_r. reflexivity.
Qed.

Lemma nth_of_prefix {A : Type} (kept l : list A) (n i : nat) (d : A) :
  kept = firstn n l -> (i < List.length kept)%nat -> nth i kept d = nth i l d.
Proof.
  intros -> Hi. rewrite length_firstn in Hi. rewrite nth_firstn.
  replace (i <? n)%nat with true; [reflexivity|].
  symmetry. apply Nat.ltb_lt. lia.
Qed.

Lemma slice_to_firstn {A : Type} (l : list A) (k : Z) :
  slice_to l k = firstn (List.length (slice_to l k)) l.
Proof.
  unfold slice_to. destruct (k <? 0)%Z;
    rewrite length_firstn, <- firstn_firstn, firstn_all; reflexivity.
Qed.

Section FitShape.

Variable stringWidth : str -> str -> Q -> Q.
Variable text : str.
Variable max_width max_height : Q.
Variable font_name : str.
Variable initial_font_size min_font_size line_spacing : Q.

Let wrap (s : Q) := wrap_text stringWidth max_width font_name s text.
Let fit := fit_text_to_box stringWidth text max_width max_height font_name
                           initial_font_size min_font_size line_spacing.
Let truncate := truncate_at_min stringWidth text max_width max_height font_name
                                min_font_size line_spacing.

(** The shortening loop keeps a prefix of the line. *)
Lemma shorten_loop_prefix (fuel : nat) : forall (size : Q) (last_line : str),
  exists rest,
    last_line
    = shorten_loop stringWidth max_width font_name fuel size last_line ++ rest.
Proof.
  induction fuel as [|fuel IH]; intros size last_line.
  - exists []. simpl. rewrite app_nil_r. reflexivity.
  - cbn [shorten_loop].
    destruct (truthy last_line && negb (Qle_bool _ max_width)) eqn:E.
    + destruct (IH size (removelast last_line)) as [rest Hrest].
      assert (Hne : last_line <> []).
      { intros ->. discriminate. }
      exists (rest ++ [last last_line 0%N]).
      rewrite app_assoc, <- Hrest. apply app_removelast_last. exact Hne.
    + exists []. rewrite app_nil_r. reflexivity.
Qed.

(** The code after the loop, in full. *)
Lemma truncate_result (lines : list str) (size : Q) (truncated : bool) :
  truncate = Ok (lines, size, truncated) ->
  let wrapped := wrap min_font_size in
  let max_lines := int_of (max_height / (min_font_size * line_spacing)) in
  let kept := slice_to wrapped max_lines in
  size = min_font_size
  /\ truncated = (Z.of_nat (List.length wrapped) >? max_lines)%Z
  /\ (truncated = false -> lines = wrapped)
  /\ (truncated = true ->
      List.length lines = List.length kept
      /\ removelast lines = removelast kept
      /\ (lines <> [] ->
          exists body rest,
            last lines [] = body ++ [ELLIPSIS] /\ last kept [] = body ++ rest)).
Proof.
  intros H wrapped max_lines kept.
  unfold truncate, truncate_at_min, py_div in H.
  destruct (Qeq_bool (min_font_size * line_spacing) 0); [discriminate|].
  simpl bind in H. fold (wrap min_font_size) in H.
  fold wrapped in H. fold max_lines in H. fold kept in H.
  destruct (Z.of_nat (List.length wrapped) >? max_lines)%Z.
  - destruct kept as [|l0 ls] eqn:Ek.
    + cbn [truthy] in H. injection H as <- <- <-.
      repeat split; try discriminate. intros Hne. congruence.
    + rewrite <- Ek in *. replace (truthy kept) with true in H by (rewrite Ek; reflexivity).
      injection H as <- <- <-.
      split; [reflexivity|]. split; [reflexivity|]. split; [discriminate|].
      intros _. split; [|split].
      * rewrite length_app. simpl.
        rewrite removelast_firstn_len, length_firstn. rewrite Ek. simpl. lia.
      * apply removelast_last.
      * intros _. rewrite last_last.
        destruct (shorten_loop_prefix (List.length (last kept [])) min_font_size
                    (last kept [])) as [rest Hrest].
        eexists _, rest. split; [reflexivity | exact Hrest].
  - injection H as <- <- <-.
    repeat split; try discriminate.
Qed.

End FitShape.

(** X6. When [fit_text_to_box] returns [truncated = false], the lines are
    those of [wrap_text] at the resolved size. *)
Theorem fit_lines_are_wrapped
    (stringWidth : str -> str -> Q -> Q) (text : str) (max_width max_height : Q)
    (font_name : str) (initial_font_size min_font_size line_spacing : Q)
    (lines : list str) (size : Q) :
  fit_text_to_box stringWidth text max_width max_height font_name
    initial_font_size min_font_size line_spacing = Ok (lines, size, false) ->
  lines = wrap_text stringWidth max_width font_name size text.
Proof.
  intros Hres.
  destruct text as [|c rest] eqn:Et.
  { injection Hres as <- <-. reflexivity. }
  rewrite <- Et in *.
  assert (Hne : text <> []) by (rewrite Et; discriminate).
  destruct (fit_nonempty stringWidth text max_width max_height font_name
              initial_font_size min_font_size line_spacing Hne) as (r & Hr & Hfit).
  rewrite Hres in Hfit. apply loop_inv in Hr.
  destruct r as [[lines' size']|]; simpl in Hr.
  - injection Hfit as -> ->. destruct Hr as (_ & _ & Hl & _). exact Hl.
  - symmetry in Hfit. apply truncate_result in Hfit.
    destruct Hfit as (-> & _ & Hl & _). apply Hl. reflexivity.
Qed.

(** X7. When [fit_text_to_box] returns [truncated = true], the size is
    [min_font_size]; there are no more lines than [wrap_text] gives at that
    size; every line but the last is the line of [wrap_text] of the same
    rank; and the last line is a prefix of the line of [wrap_text] of the
    same rank, followed by the ellipsis. *)
Theorem fit_truncated_shape
    (stringWidth : str -> str -> Q -> Q) (text : str) (max_width max_height : Q)
    (font_name : str) (initial_font_size min_font_size line_spacing : Q)
    (lines : list str) (size : Q) :
  fit_text_to_box stringWidth text max_width max_height font_name
    initial_font_size min_font_size line_spacing = Ok (lines, size, true) ->
  let wrapped := wrap_text stringWidth max_width font_name min_font_size text in
  size = min_font_size
  /\ (List.length lines <= List.length wrapped)%nat
  /\ (forall i, (i + 1 < List.length lines)%nat -> nth i lines [] = nth i wrapped [])
  /\ (lines <> [] ->
      exists body rest,
        last lines [] = body ++ [ELLIPSIS]
        /\ nth (List.length lines - 1) wrapped [] = body ++ rest).
Proof.
  intros Hres.
  assert (Hne : text <> []) by (intros ->; discriminate).
  intros wrapped.
  destruct (fit_nonempty stringWidth text max_width max_height font_name
              initial_font_size min_font_size line_spacing Hne) as (r & _ & Hfit).
  rewrite Hres in Hfit. destruct r as [[lines' size']|]; [discriminate|].
  symmetry in Hfit. apply truncate_result in Hfit.
  destruct Hfit as (Hsize & _ & _ & Htr).
  destruct (Htr eq_refl) as (Hlen & Hinit & Hlast). clear Htr.
  subst wrapped.
  set (wrapped := wrap_text stringWidth max_width font_name min_font_size text) in *.
  set (kept := slice_to wrapped
                 (int_of (max_height / (min_font_size * line_spacing)))) in *.
  assert (Hkept : kept = firstn (List.length kept) wrapped)
    by apply slice_to_firstn.
  assert (Hle : (List.length kept <= List.length wrapped)%nat).
  { rewrite Hkept at 1. rewrite length_firstn. lia. }
  split; [exact Hsize|]. split; [rewrite Hlen; exact Hle|].
  unfold str, char in *. split.
  - intros i Hi.
    assert (Hl : lines <> []) by (destruct lines; [simpl in Hi; lia | discriminate]).
    rewrite (app_removelast_last [] Hl), Hinit.
    rewrite app_nth1.
    + rewrite (nth_of_prefix (removelast kept) kept _ i []
                 (removelast_firstn_len kept)).
      * apply (nth_of_prefix kept wrapped _ i [] Hkept). lia.
      * rewrite removelast_firstn_len, length_firstn. lia.
    + rewrite removelast_firstn_len, length_firstn. lia.
  - intros Hl. destruct (Hlast Hl) as (body & rest' & E1 & E2).
    exists body, rest'. split; [exact E1|].
    rewrite <- E2, last_as_nth, Hlen. symmetry.
    apply (nth_of_prefix kept wrapped _ _ [] Hkept).
    destruct lines; [congruence | simpl in Hlen; lia].
Qed.



(** ** More on the file-name sanitizer *)

Lemma replace_char_length (c u : char) (s : str) :
  List.length (replace [c] [u] s) = List.length s.
Proof. rewrite replace_char_map. apply length_map. Qed.

Lemma scrub_length (cs : str) : forall (s : str),
  List.length (fold_left (fun result char => replace [char] [UNDERSCORE] result) cs s)
  = List.length s.
Proof.
  induction cs as [|c cs IH]; intros s; [reflexivity|].
  cbn [fold_left]. rewrite IH. apply replace_char_length.
Qed.

Lemma scrub_id (cs : str) : forall (s : str),
  (forall c, In c cs -> ~ In c s) ->
  fold_left (fun result char => replace [char] [UNDERSCORE] result) cs s = s.
Proof.
  induction cs as [|c cs IH]; intros s H; [reflexivity|].
  cbn [fold_left]. rewrite replace_char_absent by (apply H; left; reflexivity).
  apply IH. intros c' Hc'. apply H. right. exact Hc'.
Qed.

Lemma collapse_loop_length (c : char) (fuel : nat) : forall (s : str),
  (List.length (collapse_loop fuel [c; c] [c] s) <= List.length s)%nat.
Proof.
  induction fuel as [|fuel IH]; intros s; [reflexivity|].
  cbn [collapse_loop]. destruct (contains [c; c] s); [|reflexivity].
  pose proof (IH (replace [c; c] [c] s)).
  pose proof (proj1 (replace_pair_length c s)). lia.
Qed.

Lemma collapse_loop_id (c : char) (fuel : nat) (s : str) :
  has_pair c s = false -> collapse_loop fuel [c; c] [c] s = s.
Proof.
  intros H. destruct fuel; [reflexivity|].
  cbn [collapse_loop]. rewrite contains_pair, H. reflexivity.
Qed.

Lemma strip_by_length (p : char -> bool) (s : str) :
  (List.length (strip_by p s) <= List.length s)%nat.
Proof.
  destruct (strip_by_piece p s) as (d & j & H).
  rewrite H at 2. rewrite !length_app. lia.
Qed.

Lemma strip_by_last (p : char -> bool) (s l : str) (c : char) :
  strip_by p s = l ++ [c] -> p c = false.
Proof.
  unfold strip_by, rstrip_by. intros H.
  apply (f_equal (@rev char)) in H. rewrite rev_involutive, rev_app_distr in H.
  simpl in H. exact (lstrip_by_hd p _ c _ H).
Qed.

Lemma strip_by_id (p : char -> bool) (s : str) :
  (forall c t, s = c :: t -> p c = false) ->
  (forall l c, s = l ++ [c] -> p c = false) ->
  strip_by p s = s.
Proof.
  intros Hhd Hlast. destruct s as [|a s'] eqn:Es; [reflexivity|].
  rewrite <- Es in *. assert (Hne : s <> []) by (rewrite Es; discriminate).
  unfold strip_by, rstrip_by.
  assert (E1 : lstrip_by p s = s).
  { rewrite Es. simpl. rewrite (Hhd a s' Es). reflexivity. }
  rewrite E1.
  assert (E2 : lstrip_by p (rev s) = rev s).
  { rewrite (app_removelast_last 0%N Hne) at 1 2. rewrite rev_app_distr. simpl.
    rewrite (Hlast _ _ (app_removelast_last 0%N Hne)). reflexivity. }
  rewrite E2. apply rev_involutive.
Qed.

Lemma space_or_dot (c : char) :
  existsb (N.eqb c) [SPACE; DOT] = false <-> c <> SPACE /\ c <> DOT.
Proof.
  simpl. rewrite orb_false_r, orb_false_iff, !N.eqb_neq. reflexivity.
Qed.

(** The name that is not longer than [max_length] is not cut, and what the
    stripping leaves stands. *)
Lemma sanitize_uncut (name : str) (max_length : nat) :
  (List.length (sanitize_filename name max_length) <= List.length name)%nat
  /\ ((List.length name <= max_length)%nat ->
      forall l c, sanitize_filename name max_length = l ++ [c] ->
                  c <> SPACE /\ c <> DOT).
Proof.
  unfold sanitize_filename.
  set (r1 := fold_left _ unsafe_chars name).
  set (r2 := collapse_loop (List.length r1) [SPACE; SPACE] [SPACE] r1).
  set (r3 := collapse_loop (List.length r2) [UNDERSCORE; UNDERSCORE] [UNDERSCORE] r2).
  set (r4 := strip_chars [SPACE; DOT] r3).
  assert (H1 : List.length r1 = List.length name) by apply scrub_length.
  assert (H2 : (List.length r2 <= List.length r1)%nat) by apply collapse_loop_length.
  assert (H3 : (List.length r3 <= List.length r2)%nat) by apply collapse_loop_length.
  assert (H4 : (List.length r4 <= List.length r3)%nat) by apply strip_by_length.
  split.
  - destruct (max_length <? List.length r4)%nat eqn:E.
    + pose proof (firstn_le_length max_length r4). apply Nat.ltb_lt in E. lia.
    + lia.
  - intros Hlen l c Hr.
    replace (max_length <? List.length r4)%nat with false in Hr
      by (symmetry; apply Nat.ltb_ge; lia).
    apply space_or_dot. exact (strip_by_last _ _ _ _ Hr).
Qed.

(** A name that is already safe is returned as it is. *)
Lemma sanitize_fixed (name : str) (max_length : nat) :
  (forall x, In x name -> ~ In x unsafe_chars) ->
  has_pair SPACE name = false ->
  has_pair UNDERSCORE name = false ->
  ends_clean name ->
  (List.length name <= max_length)%nat ->
  sanitize_filename name max_length = name.
Proof.
  intros Hsafe Hsp Hun [Hhd Hlast] Hlen. unfold sanitize_filename.
  rewrite scrub_id by (intros c Hc Hin; exact (Hsafe c Hin Hc)).
  rewrite (collapse_loop_id SPACE _ name Hsp).
  rewrite (collapse_loop_id UNDERSCORE _ name Hun).
  unfold strip_chars. rewrite strip_by_id.
  - replace (max_length <? List.length name)%nat with false; [reflexivity|].
    symmetry. apply Nat.ltb_ge. exact Hlen.
  - intros c t E. apply space_or_dot. exact (Hhd c t E).
  - intros l c E. apply space_or_dot. exact (Hlast l c E).
Qed.

(** ** The text block *)

Section FitBudget.

Variable stringWidth : str -> str -> Q -> Q.
Variable text : str.
Variable max_width max_height : Q.
Variable font_name : str.
Variable initial_font_size min_font_size line_spacing : Q.

Let fit := fit_text_to_box stringWidth text max_width max_height font_name
                           initial_font_size min_font_size line_spacing.



End FitBudget.


Lemma draw_block_lines_calls (x final_size line_height : Q) (lines : list str) :
  forall current_y total_height,
    List.length
      (fst (draw_block_lines x final_size line_height lines current_y total_height))
    = List.length lines.
Proof.
  induction lines as [|line rest IH]; intros current_y total_height; [reflexivity|].
  cbn [draw_block_lines].
  specialize (IH (current_y - line_height) (total_height + line_height)).
  destruct (draw_block_lines x final_size line_height rest
              (current_y - line_height) (total_height + line_height)).
  cbn [fst] in *. simpl. rewrite IH. reflexivity.
Qed.


(** ** The logos *)

Lemma logo_row_left (left left' right : Q) (ops : list canvas_op) :
  left' <= left -> logo_row left right ops -> logo_row left' right ops.
Proof.
  intros Hle. destruct ops as [|op rest]; [trivial|].
  destruct op; simpl; try tauto.
  intros (H1 & H2 & H3 & H4). repeat split; try assumption. lra.
Qed.

Lemma mm_pos : 0 < mm.
Proof. reflexivity. Qed.

Section LogoFacts.

Variable path_exists : str -> bool.
Variable image_size : str -> option (Z * Z).
Variable logos : LogoConfig.

Hypothesis sizes_nonneg :
  forall p w h, image_size p = Some (w, h) -> (0 <= w)%Z /\ (0 <= h)%Z.
Hypothesis height_nonneg : 0 <= height_mm logos.
Hypothesis spacing_nonneg : 0 <= spacing_mm logos.

Lemma logo_width_nonneg (logo_path : str) (logo_width : Q) :
  logo_width_of image_size logo_path (height_mm logos * mm) = Ok logo_width ->
  0 <= logo_width.
Proof.
  unfold logo_width_of. destruct (image_size logo_path) as [[w h]|] eqn:E;
    [|discriminate].
  destruct (sizes_nonneg _ _ _ E) as [Hw Hh].
  unfold py_div. destruct (Qeq_bool (inject_Z h) 0) eqn:Ez; [discriminate|].
  simpl bind. intros H. injection H as <-.
  apply Qeq_bool_neq in Ez.
  assert (Hqw : 0 <= inject_Z w).
  { change 0 with (inject_Z 0). rewrite <- Zle_Qle. exact Hw. }
  assert (Hqh : 0 < inject_Z h).
  { assert (0 <= inject_Z h).
    { change 0 with (inject_Z 0). rewrite <- Zle_Qle. exact Hh. }
    destruct (Qlt_le_dec 0 (inject_Z h)) as [H1|H1]; [exact H1|].
    exfalso. apply Ez. lra. }
  pose proof mm_pos.
  apply Qmult_le_0_compat; [nra|].
  apply Qle_shift_div_l; [exact Hqh | lra].
Qed.

Lemma draw_logos_from_row (x y max_width : Q) (logo_paths : list str) :
  forall current_x,
    logo_row current_x (x + max_width)
      (draw_logos_from path_exists image_size logos x y max_width logo_paths current_x).
Proof.
  induction logo_paths as [|logo_path rest IH]; intros current_x; [exact I|].
  cbn [draw_logos_from]. destruct (negb (path_exists logo_path)); [apply IH|].
  destruct (logo_width_of image_size logo_path (height_mm logos * mm))
    as [logo_width| |] eqn:E; try apply IH.
  destruct (Qle_bool (current_x + logo_width) (x + max_width)) eqn:Efit;
    simpl negb; cbv iota; [|exact I].
  pose proof (logo_width_nonneg _ _ E) as Hw.
  apply Qle_bool_iff in Efit. pose proof mm_pos.
  cbn [logo_row]. repeat split; try assumption; try lra.
  apply logo_row_left with (left := current_x + (logo_width + spacing_mm logos * mm)).
  - assert (0 <= spacing_mm logos * mm) by nra. lra.
  - apply IH.
Qed.

End LogoFacts.

(** X14. The logos stay in their row: when the sizes of the images, the
    height and the spacing of the configuration are not negative, every
    logo that [_draw_logos] draws lies between [x] and [x + max_width], and
    each one starts at or after the end of the one before. *)
Theorem logos_in_row
    (path_exists : str -> bool) (image_size : str -> option (Z * Z))
    (logos : LogoConfig) (x y max_width max_height : Q) :
  (forall p w h, image_size p = Some (w, h) -> (0 <= w)%Z /\ (0 <= h)%Z) ->
  0 <= height_mm logos ->
  0 <= spacing_mm logos ->
  logo_row x (x + max_width)
    (_draw_logos path_exists image_size logos x y max_width max_height).
Proof.
  intros Hsizes Hh Hs. unfold _draw_logos.
  destruct (negb (truthy (paths logos))); [exact I|].
  apply draw_logos_from_row; assumption.
Qed.

(** ** The placeholder of the image *)

(** X15. [_draw_image] does not raise on an image that does not open, an
    image of height 0 or a target of height 0: it draws the placeholder
    rectangle on the target and adds one warning, which names the image,
    and no image is drawn. *)
Theorem draw_image_placeholder
    (image_path : str) (img_size : option (Z * Z)) (x y width height : Q)
    (fit_mode : str) :
  img_size = None \/ (exists w, img_size = Some (w, 0%Z)) \/ height == 0 ->
  _draw_image image_path img_size x y width height fit_mode
  = ([SetStrokeBlack; SetFillWhite; Rect x y width height],
     [py "Failed to draw image " ++ image_path]).
Proof.
  intros H. unfold _draw_image.
  assert (E : exists e, draw_image_body img_size x y width height fit_mode = Raise e).
  { destruct H as [->|[[w ->]|Hz]].
    - exists OSError. reflexivity.
    - exists ZeroDivisionError. reflexivity.
    - destruct img_size as [[w h]|]; [|exists OSError; reflexivity].
      exists ZeroDivisionError. unfold draw_image_body, py_div.
      destruct (Qeq_bool (inject_Z h) 0); [reflexivity|]. simpl bind.
      apply Qeq_bool_iff in Hz. rewrite Hz. reflexivity. }
  destruct E as [e ->]. reflexivity.
Qed.

(** ** More of sanitize_filename *)

(** X10. A name that is not longer than [max_length] is not cut: the file
    name has no space and no dot at either end, and it is not longer than
    the name. *)
Theorem sanitize_short_name (name : str) (max_length : nat) :
  (List.length name <= max_length)%nat ->
  ends_clean (sanitize_filename name max_length)
  /\ (List.length (sanitize_filename name max_length) <= List.length name)%nat.
Proof.
  intros Hlen.
  destruct (sanitize_uncut name max_length) as [Hle Hlast].
  destruct (sanitize_filename_safe name max_length) as (_ & _ & _ & Hhd & _).
  split; [split|]; [exact Hhd | exact (Hlast Hlen) | exact Hle].
Qed.

(** X11. [sanitize_filename] leaves a name that is already safe as it is:
    none of the unsafe characters, no two spaces and no two underscores in
    a row, no space and no dot at either end, not longer than
    [max_length]. *)
Theorem sanitize_safe_name_unchanged (name : str) (max_length : nat) :
  (forall x, In x name -> ~ In x unsafe_chars) ->
  has_pair SPACE name = false ->
  has_pair UNDERSCORE name = false ->
  ends_clean name ->
  (List.length name <= max_length)%nat ->
  sanitize_filename name max_length = name.
Proof. apply sanitize_fixed. Qed.

(** X12. On a name that is not longer than [max_length],
    [sanitize_filename] is idempotent. *)
Theorem sanitize_idempotent (name : str) (max_length : nat) :
  (List.length name <= max_length)%nat ->
  sanitize_filename (sanitize_filename name max_length) max_length
  = sanitize_filename name max_length.
Proof.
  intros Hlen.
  destruct (sanitize_uncut name max_length) as [_ Hlast].
  destruct (sanitize_filename_safe name max_length)
    as (Hsafe & Hsp & Hun & Hhd & Hmax).
  rewrite contains_pair in Hsp, Hun.
  apply sanitize_fixed; try assumption.
  split; [exact Hhd | exact (Hlast Hlen)].
Qed.

(** ** find_project_image *)

Section FindImageFacts.

Variable path : Type.
Variable Path : str -> path.
Variable path_join : path -> str -> path.
Variable path_exists : path -> bool.
Variables lower upper : str -> str.


End FindImageFacts.


(** ** generate_all_posters *)

Lemma validate_truthy (p : ProjectData) :
  truthy (validate p) = negb (complete p).
Proof.
  unfold validate, complete.
  destruct (truthy (project_id p)), (truthy (project_name p)),
    (truthy (problem p)), (truthy (solution p)), (truthy (product p)),
    (truthy (team p)); reflexivity.
Qed.

Section AllPostersFacts.

Variable path : Type.
Variable Path : str -> path.
Variable path_join : path -> str -> path.
Variables lower upper : str -> str.
Variable world : Type.
Variable path_exists : world -> path -> bool.
Variable generate_poster :
  world -> ProjectData -> option path -> world * (str + (path * list str)).
Variable images_folder : path.
Variable only_ids : option (list str).

Let step := generate_one path Path path_join lower upper world path_exists
                         generate_poster images_folder only_ids.
Let chosen := selected only_ids.
Let validation_error (p : ProjectData) : str * str :=
  (project_id p, py "Validation errors: " ++ join (py "; ") (validate p)).

(** What one turn of the loop adds to the two lists. *)
Lemma generate_one_outcome
    (acc : world * (list (str * path) * list (str * str))) (p : ProjectData) :
  exists s1 f1,
    fst (snd (step acc p)) = fst (snd acc) ++ s1
    /\ snd (snd (step acc p)) = snd (snd acc) ++ f1
    /\ ((chosen p = false /\ s1 = [] /\ f1 = [])
        \/ (chosen p = true /\ complete p = false
            /\ s1 = [] /\ f1 = [validation_error p])
        \/ (chosen p = true /\ complete p = true
            /\ ((exists out, s1 = [(project_id p, out)] /\ f1 = [])
                \/ (exists e,
                      s1 = []
                      /\ f1 = [(project_id p,
                                py "Failed to generate poster: " ++ e)])))).
Proof.
  destruct acc as [w [successes failures]]. unfold step, generate_one.
  fold chosen. destruct (chosen p) eqn:Ec; cbn [negb].
  2:{ exists [], []. cbn [fst snd]. rewrite !app_nil_r.
      split; [reflexivity|]. split; [reflexivity|]. left. auto. }
  rewrite validate_truthy. destruct (complete p) eqn:Ev; cbn [negb].
  2:{ exists [], [validation_error p]. cbn [fst snd]. rewrite app_nil_r.
      split; [reflexivity|]. split; [reflexivity|]. right. left. auto. }
  destruct (generate_poster w p _) as [w' [e|[output_path warnings]]].
  - exists [], [(project_id p, py "Failed to generate poster: " ++ e)].
    cbn [fst snd]. rewrite app_nil_r.
    split; [reflexivity|]. split; [reflexivity|]. right. right.
    repeat split. right. exists e. auto.
  - exists [(project_id p, output_path)], []. cbn [fst snd]. rewrite app_nil_r.
    split; [reflexivity|]. split; [reflexivity|]. right. right.
    repeat split. left. exists output_path. auto.
Qed.

Lemma generate_fold (projects : list ProjectData) :
  forall acc : world * (list (str * path) * list (str * str)),
  exists s2 f2,
    fst (snd (fold_left step projects acc)) = fst (snd acc) ++ s2
    /\ snd (snd (fold_left step projects acc)) = snd (snd acc) ++ f2
    /\ Permutation (map fst s2 ++ map fst f2)
                   (map project_id (filter chosen projects))
    /\ (forall id out, In (id, out) s2 ->
          exists p, In p projects /\ project_id p = id
                    /\ chosen p = true /\ complete p = true)
    /\ (forall p, In p projects -> chosen p = true -> complete p = false ->
          In (validation_error p) f2).
Proof.
  induction projects as [|p rest IH]; intros acc.
  - exists [], []. cbn [fold_left]. rewrite !app_nil_r.
    repeat split; try constructor; intros; contradiction.
  - cbn [fold_left].
    destruct (generate_one_outcome acc p) as (s1 & f1 & E1 & E2 & O).
    destruct (IH (step acc p)) as (s2 & f2 & E3 & E4 & HP & HS & HF).
    exists (s1 ++ s2), (f1 ++ f2).
    split; [rewrite E3, E1, app_assoc; reflexivity|].
    split; [rewrite E4, E2, app_assoc; reflexivity|].
    assert (HS' : forall id out, In (id, out) s2 ->
              exists q, In q (p :: rest) /\ project_id q = id
                        /\ chosen q = true /\ complete q = true).
    { intros id out Hin. destruct (HS id out Hin) as (q & Hq & Hrest).
      exists q. split; [right; exact Hq | exact Hrest]. }
    cbn [filter].
    destruct O as [(Ec & -> & ->)|[(Ec & Ev & -> & ->)|(Ec & Ev & O)]];
      rewrite Ec.
    + cbn [app]. split; [exact HP|]. split; [exact HS'|].
      intros q [<-|Hq] Hc Hv; [congruence | apply HF; assumption].
    + cbn [app map fst]. split.
      { apply Permutation_sym, Permutation_cons_app, Permutation_sym. exact HP. }
      split; [exact HS'|].
      intros q [<-|Hq] Hc Hv; [left; reflexivity | right; apply HF; assumption].
    + destruct O as [(out & -> & ->)|(e & -> & ->)]; cbn [app map fst].
      * split; [constructor; exact HP|]. split.
        { intros id out' [H|Hin]; [|apply HS' with out'; exact Hin].
          injection H as <- _. exists p. split; [left; reflexivity | auto]. }
        intros q [<-|Hq] Hc Hv; [congruence | apply HF; assumption].
      * split.
        { apply Permutation_sym, Permutation_cons_app, Permutation_sym. exact HP. }
        split; [exact HS'|].
        intros q [<-|Hq] Hc Hv; [congruence | right; apply HF; assumption].
Qed.

End AllPostersFacts.

Lemma complete_validate (p : ProjectData) :
  complete p = true <-> validate p = [].
Proof.
  pose proof (validate_truthy p) as H.
  destruct (validate p), (complete p); simpl in H; split; congruence.
Qed.

(** X17. [generate_all_posters] reports every selected project once, as a
    success or as a failure, and no other project: the ids of the two lists
    together are the ids of the projects that [only_ids] selects, up to
    their order. *)
Theorem all_posters_account
    (path : Type) (Path : str -> path) (path_join : path -> str -> path)
    (lower upper : str -> str) (world : Type)
    (path_exists : world -> path -> bool)
    (generate_poster :
       world -> ProjectData -> option path -> world * (str + (path * list str)))
    (w : world) (projects : list ProjectData) (images_folder : path)
    (only_ids : option (list str)) :
  let result :=
    generate_all_posters path Path path_join lower upper world path_exists
      generate_poster w projects images_folder only_ids in
  let successes := fst (snd result) in
  let failures := snd (snd result) in
  Permutation (map fst successes ++ map fst failures)
              (map project_id (filter (selected only_ids) projects)).
Proof.
  intros result successes failures.
  destruct (generate_fold path Path path_join lower upper world path_exists
              generate_poster images_folder only_ids projects (w, ([], [])))
    as (s2 & f2 & E1 & E2 & HP & _).
  cbn [fst snd app] in E1, E2. subst successes failures result.
  unfold generate_all_posters. rewrite E1, E2. exact HP.
Qed.

(** X18. [generate_all_posters] writes no poster for a project that does
    not validate: every success is a selected project of the list whose
    [validate] gives no error, and every selected project whose [validate]
    gives errors is among the failures, with the errors joined by a
    semicolon and a space after the words Validation errors. *)
Theorem all_posters_validation
    (path : Type) (Path : str -> path) (path_join : path -> str -> path)
    (lower upper : str -> str) (world : Type)
    (path_exists : world -> path -> bool)
    (generate_poster :
       world -> ProjectData -> option path -> world * (str + (path * list str)))
    (w : world) (projects : list ProjectData) (images_folder : path)
    (only_ids : option (list str)) :
  let result :=
    generate_all_posters path Path path_join lower upper world path_exists
      generate_poster w projects images_folder only_ids in
  let successes := fst (snd result) in
  let failures := snd (snd result) in
  (forall id output_path,
     In (id, output_path) successes ->
     exists p, In p projects /\ project_id p = id
               /\ selected only_ids p = true /\ validate p = [])
  /\ (forall p,
        In p projects -> selected only_ids p = true -> validate p <> [] ->
        In (project_id p,
            py "Validation errors: " ++ join (py "; ") (validate p))
           failures).
Proof.
  intros result successes failures.
  destruct (generate_fold path Path path_join lower upper world path_exists
              generate_poster images_folder only_ids projects (w, ([], [])))
    as (s2 & f2 & E1 & E2 & _ & HS & HF).
  cbn [fst snd app] in E1, E2. subst successes failures result.
  unfold generate_all_posters. rewrite E1, E2. split.
  - intros id output_path Hin.
    destruct (HS id output_path Hin) as (p & Hp & Hid & Hc & Hv).
    exists p. repeat split; try assumption. apply complete_validate. exact Hv.
  - intros p Hp Hc Hv. apply HF; try assumption.
    destruct (complete p) eqn:E; [|reflexivity].
    exfalso. apply Hv. apply complete_validate. exact E.
Qed.

(** ** The properties above at concrete inputs *)

Lemma wrap_text_lines_fit_witness :
  let text := py "hello world" in
  only_spaces_and_newlines text
  /\ Forall (fun line =>
               tidy line
               /\ (courier line (py "Courier") 10 <= 30
                   \/ List.length line = 1%nat))
            (wrap_text courier 30 (py "Courier") 10 text).
Proof.
  intros text.
  assert (H1 : only_spaces_and_newlines text)
    by (apply only_spaces_and_newlinesb_true; vm_compute; reflexivity).
  split; [exact H1|].
  exact (wrap_text_lines_fit courier 30 (py "Courier") 10 text H1).
Defined.

Lemma wrap_text_empty_iff_witness :
  let text := py "  " ++ [NEWLINE] ++ py " " in
  only_spaces_and_newlines text
  /\ (wrap_text courier 30 (py "Courier") 10 text = [] <-> letters text = []).
Proof.
  intros text.
  assert (H1 : only_spaces_and_newlines text)
    by (apply only_spaces_and_newlinesb_true; vm_compute; reflexivity).
  split; [exact H1|].
  exact (wrap_text_empty_iff courier 30 (py "Courier") 10 text H1).
Defined.

Lemma fit_lines_are_wrapped_witness :
  let lines := [py "hello"; py "world"] in
  fit_text_to_box courier (py "hello world") 30 25 (py "Courier") 12 10 1
  = Ok (lines, 10, false)
  /\ lines = wrap_text courier 30 (py "Courier") 10 (py "hello world").
Proof.
  intros lines.
  assert (H1 : fit_text_to_box courier (py "hello world") 30 25 (py "Courier")
                 12 10 1 = Ok (lines, 10, false))
    by (vm_compute; reflexivity).
  split; [exact H1|].
  exact (fit_lines_are_wrapped courier (py "hello world") 30 25 (py "Courier")
           12 10 1 lines 10 H1).
Defined.

Lemma fit_truncated_shape_witness :
  let text := py "hello world foo bar" in
  let lines := [py "hello"; py "worl" ++ [ELLIPSIS]] in
  let wrapped := wrap_text courier 30 (py "Courier") 10 text in
  fit_text_to_box courier text 30 25 (py "Courier") 12 10 1 = Ok (lines, 10, true)
  /\ (10 = 10
      /\ (List.length lines <= List.length wrapped)%nat
      /\ (forall i, (i + 1 < List.length lines)%nat ->
            nth i lines [] = nth i wrapped [])
      /\ (lines <> [] ->
          exists body rest,
            last lines [] = body ++ [ELLIPSIS]
            /\ nth (List.length lines - 1) wrapped [] = body ++ rest)).
Proof.
  intros text lines wrapped.
  assert (H1 : fit_text_to_box courier text 30 25 (py "Courier") 12 10 1
               = Ok (lines, 10, true))
    by (vm_compute; reflexivity).
  split; [exact H1|].
  exact (fit_truncated_shape courier text 30 25 (py "Courier") 12 10 1 lines 10 H1).
Defined.




Lemma logos_in_row_witness :
  let path_exists := fun p => negb (str_eqb p (py "missing.png")) in
  let image_size := fun _ : str => Some (200%Z, 100%Z) in
  let logos := {| paths := [py "a.png"; py "missing.png"; py "b.png"];
                  height_mm := 15; spacing_mm := 5 |} in
  ((forall p w h, image_size p = Some (w, h) -> (0 <= w)%Z /\ (0 <= h)%Z)
   /\ 0 <= 15 /\ 0 <= 5)
  /\ logo_row 20 (20 + 400) (_draw_logos path_exists image_size logos 20 700 400 60).
Proof.
  intros path_exists image_size logos.
  assert (H1 : forall p w h, image_size p = Some (w, h) -> (0 <= w)%Z /\ (0 <= h)%Z).
  { intros p w h E. injection E as <- <-. split; discriminate. }
  assert (H2 : 0 <= 15) by discriminate.
  assert (H3 : 0 <= 5) by discriminate.
  split; [exact (conj H1 (conj H2 H3))|].
  exact (logos_in_row path_exists image_size logos 20 700 400 60 H1 H2 H3).
Defined.

Lemma draw_image_placeholder_witness :
  (@None (Z * Z) = None \/ (exists w, @None (Z * Z) = Some (w, 0%Z)) \/ 80 == 0)
  /\ _draw_image (py "photo.jpg") None 10 20 100 80 (py "contain")
     = ([SetStrokeBlack; SetFillWhite; Rect 10 20 100 80],
        [py "Failed to draw image " ++ py "photo.jpg"]).
Proof.
  assert (H : @None (Z * Z) = None \/ (exists w, @None (Z * Z) = Some (w, 0%Z))
              \/ 80 == 0) by (left; reflexivity).
  split; [exact H|].
  exact (draw_image_placeholder (py "photo.jpg") None 10 20 100 80 (py "contain") H).
Defined.

Lemma sanitize_short_name_witness :
  let name := py " my: poster. " in
  (List.length name <= 200)%nat
  /\ ends_clean (sanitize_filename name 200)
  /\ (List.length (sanitize_filename name 200) <= List.length name)%nat.
Proof.
  intros name.
  assert (H : (List.length name <= 200)%nat) by (vm_compute; lia).
  split; [exact H|].
  exact (sanitize_short_name name 200 H).
Defined.

Lemma sanitize_safe_name_unchanged_witness :
  let name := py "a b" in
  ((forall x, In x name -> ~ In x unsafe_chars)
   /\ has_pair SPACE name = false
   /\ has_pair UNDERSCORE name = false
   /\ ends_clean name
   /\ (List.length name <= 200)%nat)
  /\ sanitize_filename name 200 = name.
Proof.
  intros name.
  assert (H1 : forall x, In x name -> ~ In x unsafe_chars).
  { intros x Hx Hin. vm_compute in Hx, Hin.
    repeat (destruct Hx as [Hx|Hx]; [subst x|]); try contradiction;
      repeat (destruct Hin as [Hin|Hin]; [discriminate|]); contradiction. }
  assert (H2 : has_pair SPACE name = false) by reflexivity.
  assert (H3 : has_pair UNDERSCORE name = false) by reflexivity.
  assert (H4 : ends_clean name).
  { split.
    - intros c t E. injection E as <- _. split; discriminate.
    - intros l c E. apply (f_equal (fun s => last s 0%N)) in E.
      rewrite last_last in E. vm_compute in E. subst c. split; discriminate. }
  assert (H5 : (List.length name <= 200)%nat) by (vm_compute; lia).
  split; [exact (conj H1 (conj H2 (conj H3 (conj H4 H5))))|].
  exact (sanitize_safe_name_unchanged name 200 H1 H2 H3 H4 H5).
Defined.

Lemma sanitize_idempotent_witness :
  let name := py " my: poster. " in
  (List.length name <= 200)%nat
  /\ sanitize_filename (sanitize_filename name 200) 200
     = sanitize_filename name 200.
Proof.
  intros name.
  assert (H : (List.length name <= 200)%nat) by (vm_compute; lia).
  split; [exact H|].
  exact (sanitize_idempotent name 200 H).
Defined.
